(** * with-defer: Go-style [defer] for JavaScript/TypeScript

    A verification model of [src/index.ts].  The coordinator [withDefer]
    runs a caller-supplied work function with a registration handle
    [defer], then pops and runs every registered callback (LIFO), collects
    every failure and either returns the work function's result or throws
    one [AggregateError].

    The model is sequential: the source awaits the work function and each
    callback before going on, so a call's effects are complete when its
    continuation starts.  User code is a tree of interactions ([prog]) in
    which every call is awaited; function objects are identified by an
    index into a table of bodies ([code]), so a function object can be
    stored, passed around and can refer to itself.  A promise is a value
    that carries what it settles to; promises that never settle and
    thenables other than promises are not modelled.  Calls are interpreted
    with fuel; running out of fuel ([None]) stands for an invocation that
    has not settled. *)

From Stdlib Require Import String ZArith Lia.
From stdpp Require Import base list.

Open Scope string_scope.
Open Scope list_scope.

(** ** JavaScript values *)

(** What [instanceof Promise] looks at: a function object normally has
    [Function.prototype] in its chain, but its prototype can be replaced. *)
Inductive prototype : Type :=
| FunctionProto
| PromiseProto.

Inductive fate : Type :=
| Fulfilled
| Rejected.

#[warnings="-register-all"]
Inductive value : Type :=
| VUndefined
| VNull
| VBool (b : bool)
| VNum (z : Z)
| VStr (s : string)
| VError (message : string)
| VTypeError (message : string)
| VAggregateError (errors : list value) (message : string)
| VPromise (f : fate) (v : value)
| VFun (proto : prototype) (fid : nat)
| VDeferFn (id : nat)
| VWithDefer.

(** The result of evaluating something: a value, or a thrown value. *)
Inductive outcome : Type :=
| Normal (v : value)
| Thrown (e : value).

(** [typeof v] *)
Definition typeof (v : value) : string :=
  match v with
  | VUndefined => "undefined"
  | VNull => "object"
  | VBool _ => "boolean"
  | VNum _ => "number"
  | VStr _ => "string"
  | VError _ | VTypeError _ | VAggregateError _ _ => "object"
  | VPromise _ _ => "object"
  | VFun _ _ | VDeferFn _ | VWithDefer => "function"
  end.

Definition is_function (v : value) : bool := String.eqb (typeof v) "function".

(** [v instanceof Promise] *)
Definition instanceof_Promise (v : value) : bool :=
  match v with
  | VPromise _ _ => true
  | VFun PromiseProto _ => true
  | _ => false
  end.

(** The [TypeError] of [Promise.prototype.then] called on a receiver that
    is not a promise (the text is the engine's). *)
Definition incompatible_receiver_msg : string :=
  "Method Promise.prototype.then called on incompatible receiver".

(** [await v]: a promise is replaced by what it settles to.  A function
    object whose prototype is [Promise.prototype] inherits [then], so it is
    treated as a thenable and [then], called on it, throws.  Any other
    value is passed through. *)
Fixpoint settle (v : value) : outcome :=
  match v with
  | VPromise Fulfilled x => settle x
  | VPromise Rejected e => Thrown e
  | VFun PromiseProto _ => Thrown (VTypeError incompatible_receiver_msg)
  | _ => Normal v
  end.

(** [await e] where evaluating [e] gave [o]: a throw stays a throw. *)
Definition await_ (o : outcome) : outcome :=
  match o with
  | Normal v => settle v
  | Thrown e => Thrown e
  end.

(** The promise an [async] function hands back for its outcome. *)
Definition promise_of (o : outcome) : value :=
  match o with
  | Normal v => VPromise Fulfilled v
  | Thrown e => VPromise Rejected e
  end.

(** ** User code *)

(** A function body.  [Return] ends a block with a value, [Throw] raises,
    [Emit] is an observable side effect (such as [order.push(1)]),
    [Call f args k] is [const x = await f(...args); k x] and
    [Try body handler k] is [try { body } catch (e) { handler e }; k]. *)
Inductive prog : Type :=
| Return (v : value)
| Throw (e : value)
| Emit (v : value) (k : prog)
| Call (f : value) (args : list value) (k : value -> prog)
| Try (body : prog) (handler : value -> prog) (k : value -> prog).

(** Sequencing: run [p], then [k] on its value. *)
Fixpoint bind (p : prog) (k : value -> prog) : prog :=
  match p with
  | Return v => k v
  | Throw e => Throw e
  | Emit v p' => Emit v (bind p' k)
  | Call f args k' => Call f args (fun x => bind (k' x) k)
  | Try body handler k' => Try body handler (fun x => bind (k' x) k)
  end.

(** ** The world: every invocation's [deferred] array, and a trace *)

(** The trace is ghost state: it records what happened and is never read
    by the program.  [id] is the invocation that owns the [deferred]
    array concerned.  [EvAccepted] is recorded by the caller of a handle,
    not by the handle: the call [defer(callback)] returned normally. *)
Inductive event : Type :=
| EvEmit (v : value)
| EvEnter (id : nat)
| EvPush (id : nat) (callback : value)
| EvWorkSettled (id : nat) (o : outcome)
| EvPop (id : nat) (callback : value)
| EvCleanupSettled (id : nat) (callback : value) (o : outcome)
| EvExit (id : nat) (o : outcome)
| EvAccepted (id : nat) (callback : value).

Record world : Type := World {
  heap : list (list value);
  trace : list event
}.

Definition log (e : event) (w : world) : world :=
  World (heap w) (trace w ++ [e]).

(** [const deferred = []] of a new invocation; its index is the
    invocation's id. *)
Definition alloc (w : world) : world :=
  World (heap w ++ [[]]) (trace w).

Definition deferred (id : nat) (w : world) : list value :=
  default [] (heap w !! id).

Definition set_deferred (id : nat) (l : list value) (w : world) : world :=
  World (<[id := l]> (heap w)) (trace w).

(** [deferred.push(callback)] *)
Definition push (id : nat) (callback : value) (w : world) : world :=
  log (EvPush id callback) (set_deferred id (deferred id w ++ [callback]) w).

(** [deferred.pop()]: the last element and the rest, [None] when
    [deferred.length] is 0. *)
Fixpoint pop (l : list value) : option (value * list value) :=
  match l with
  | [] => None
  | x :: l' =>
      match pop l' with
      | None => Some (x, [])
      | Some (y, r) => Some (y, x :: r)
      end
  end.

Definition arg0 (args : list value) : value :=
  match args with
  | [] => VUndefined
  | v :: _ => v
  end.

(** ** The code of [src/index.ts] *)

Definition withDefer_msg : string := "withDefer() expects a function".
Definition defer_msg : string := "defer() expects a function".
Definition defer_promise_msg : string :=
  String.append "defer() expects a function, not a Promise. "
                "Use defer(() => yourAsyncFunction()) instead".
Definition aggregate_msg : string := "Errors in defer execution".

(** The closure [defer] of invocation [id] (lines 44-57). *)
Definition defer (id : nat) (callback : value) (w : world) : outcome * world :=
  if negb (is_function callback) then
    (Thrown (VTypeError defer_msg), w)
  else if instanceof_Promise callback then
    (Thrown (VTypeError defer_promise_msg), w)
  else
    (Normal VUndefined, push id callback w).

(** Lines 60-66: [result] and [errors] once [await fn(defer)] settled. *)
Definition after_work (o : outcome) : value * list value :=
  match o with
  | Normal v => (v, [])
  | Thrown e => (VNull, [e])
  end.

(** Lines 73-75: [errors] once [await callback()] settled. *)
Definition after_cleanup (errors : list value) (o : outcome) : list value :=
  match o with
  | Normal _ => errors
  | Thrown e => errors ++ [e]
  end.

(** Lines 79-83. *)
Definition finish (result : value) (errors : list value) : outcome :=
  if bool_decide (0 < length errors) then
    Thrown (VAggregateError errors aggregate_msg)
  else
    Normal result.

Section Interp.

(** The bodies of the function objects of the program. *)
Variable code : nat -> list value -> prog.

Fixpoint exec (n : nat) (p : prog) (w : world) {struct n}
  : option (outcome * world) :=
  match n with
  | O => None
  | S n =>
      match p with
      | Return v => Some (Normal v, w)
      | Throw e => Some (Thrown e, w)
      | Emit v k => exec n k (log (EvEmit v) w)
      | Call f args k =>
          match call n f args w with
          | None => None
          | Some (o, w1) =>
              match await_ o with
              | Normal v => exec n (k v) w1
              | Thrown e => Some (Thrown e, w1)
              end
          end
      | Try body handler k =>
          match exec n body w with
          | None => None
          | Some (Normal v, w1) => exec n (k v) w1
          | Some (Thrown e, w1) =>
              match exec n (handler e) w1 with
              | None => None
              | Some (Normal v, w2) => exec n (k v) w2
              | Some (Thrown e', w2) => Some (Thrown e', w2)
              end
          end
      end
  end

(** [f(...args)], not yet awaited. *)
with call (n : nat) (f : value) (args : list value) (w : world) {struct n}
  : option (outcome * world) :=
  match n with
  | O => None
  | S n =>
      match f with
      | VFun _ fid => exec n (code fid args) w
      | VDeferFn id =>
          match defer id (arg0 args) w with
          | (Normal v, w1) =>
              Some (Normal v, log (EvAccepted id (arg0 args)) w1)
          | (Thrown e, w1) => Some (Thrown e, w1)
          end
      | VWithDefer =>
          match withDefer n (arg0 args) w with
          | None => None
          | Some (o, w1) => Some (Normal (promise_of o), w1)
          end
      | _ => Some (Thrown (VTypeError "not a function"), w)
      end
  end

(** Lines 69-76: the [while] loop of the [finally] block. *)
with drain (n : nat) (id : nat) (errors : list value) (w : world) {struct n}
  : option (list value * world) :=
  match n with
  | O => None
  | S n =>
      match pop (deferred id w) with
      | None => Some (errors, w)
      | Some (callback, rest) =>
          let w1 := log (EvPop id callback) (set_deferred id rest w) in
          match call n callback [] w1 with
          | None => None
          | Some (o, w2) =>
              let o' := await_ o in
              drain n id (after_cleanup errors o')
                (log (EvCleanupSettled id callback o') w2)
          end
      end
  end

(** Lines 42-77: everything up to the inspection of [errors]. *)
with collect (n : nat) (fn : value) (w : world) {struct n}
  : option (value * list value * world) :=
  match n with
  | O => None
  | S n =>
      let id := length (heap w) in
      match call n fn [VDeferFn id] (log (EvEnter id) (alloc w)) with
      | None => None
      | Some (o, w1) =>
          let o' := await_ o in
          let '(result, errors) := after_work o' in
          match drain n id errors (log (EvWorkSettled id o') w1) with
          | None => None
          | Some (errors', w2) => Some (result, errors', w2)
          end
      end
  end

(** [withDefer(fn)], awaited: [Normal v] is a promise fulfilled with
    [v], [Thrown e] one rejected with [e]. *)
with withDefer (n : nat) (fn : value) (w : world) {struct n}
  : option (outcome * world) :=
  if negb (is_function fn) then
    Some (Thrown (VTypeError withDefer_msg), w)
  else
    match n with
    | O => None
    | S n =>
        match collect n fn w with
        | None => None
        | Some (result, errors, w2) =>
            let out := finish result errors in
            Some (out, log (EvExit (length (heap w)) out) w2)
        end
    end.

End Interp.

(** ** Reading the trace *)

(** The invocation an event belongs to.  A push is made by whoever holds
    the handle, so it belongs to no invocation in particular. *)
Definition owner (e : event) : option nat :=
  match e with
  | EvEmit _ | EvPush _ _ | EvAccepted _ _ => None
  | EvEnter id | EvWorkSettled id _ | EvPop id _
  | EvCleanupSettled id _ _ | EvExit id _ => Some id
  end.

(** The callbacks appended to the array of [id], in order. *)
Definition pushes (id : nat) (t : list event) : list value :=
  omap (fun e => match e with
                 | EvPush i cb => if decide (i = id) then Some cb else None
                 | _ => None
                 end) t.

(** The callbacks removed from the array of [id] and run, in order. *)
Definition pops (id : nat) (t : list event) : list value :=
  omap (fun e => match e with
                 | EvPop i cb => if decide (i = id) then Some cb else None
                 | _ => None
                 end) t.

(** Every value thrown to invocation [id] by its work function or by one
    of its callbacks, in order. *)
Definition thrown_to (id : nat) (t : list event) : list value :=
  omap (fun e => match e with
                 | EvWorkSettled i (Thrown x)
                 | EvCleanupSettled i _ (Thrown x) =>
                     if decide (i = id) then Some x else None
                 | _ => None
                 end) t.

(** What the user code made observable, in order. *)
Definition emitted (t : list event) : list value :=
  omap (fun e => match e with EvEmit v => Some v | _ => None end) t.

(** The values thrown among a list of outcomes. *)
Definition failures (os : list outcome) : list value :=
  omap (fun o => match o with Thrown e => Some e | Normal _ => None end) os.

(** An event of an invocation not older than [k]. *)
Definition fresh (k : nat) (e : event) : Prop :=
  forall id, owner e = Some id -> k <= id.

(** The same, or an event of invocation [id0]. *)
Definition fresh_or (id0 k : nat) (e : event) : Prop :=
  forall id, owner e = Some id -> id = id0 \/ k <= id.

(** An event of an invocation whose array exists in [w]. *)
Definition known (w : world) (e : event) : Prop :=
  forall id, owner e = Some id -> id < length (heap w).

(** [w'] comes after [w]: the trace grew by events satisfying [Q], no
    array disappeared, every array that existed in [w] and that [X]
    allows grew by exactly the pushes made on it, and the new events are
    those of invocations [w'] knows. *)
Definition extends (Q : event -> Prop) (X : nat -> Prop) (w w' : world) : Prop :=
  exists t,
    trace w' = trace w ++ t /\
    Forall Q t /\
    length (heap w) <= length (heap w') /\
    (forall id, id < length (heap w) -> X id ->
                deferred id w' = deferred id w ++ pushes id t) /\
    Forall (known w') t.

Definition any_id (id : nat) : Prop := True.

(** More fuel never changes a result: the statement at fuel [n]. *)
Definition mono_at (code : nat -> list value -> prog) (n : nat) : Prop :=
  (forall p w r, exec code n p w = Some r ->
     forall m, n <= m -> exec code m p w = Some r) /\
  (forall f args w r, call code n f args w = Some r ->
     forall m, n <= m -> call code m f args w = Some r) /\
  (forall id errors w r, drain code n id errors w = Some r ->
     forall m, n <= m -> drain code m id errors w = Some r) /\
  (forall fn w r, collect code n fn w = Some r ->
     forall m, n <= m -> collect code m fn w = Some r) /\
  (forall fn w r, withDefer code n fn w = Some r ->
     forall m, n <= m -> withDefer code m fn w = Some r).

(** A run started in [w] only produces events of invocations it
    starts itself; the loop of invocation [id] also produces the events
    of [id], and is the only code that removes from the array of [id]. *)
Definition history_at (code : nat -> list value -> prog) (n : nat) : Prop :=
  (forall p w o w', exec code n p w = Some (o, w') ->
     extends (fresh (length (heap w))) any_id w w') /\
  (forall f args w o w', call code n f args w = Some (o, w') ->
     extends (fresh (length (heap w))) any_id w w') /\
  (forall id errors w errors' w',
     drain code n id errors w = Some (errors', w') ->
     extends (fresh_or id (length (heap w))) (fun i => i <> id) w w') /\
  (forall fn w result errors w',
     collect code n fn w = Some (result, errors, w') ->
     extends (fresh (length (heap w))) any_id w w' /\
     length (heap w) < length (heap w')) /\
  (forall fn w o w', withDefer code n fn w = Some (o, w') ->
     extends (fresh (length (heap w))) any_id w w').

(** Calling [cb] settles as [o] wherever it is called, and leaves the
    array of invocation [id] as it found it. *)
Definition action_settles (code : nat -> list value -> prog) (id : nat)
    (cb : value) (o : outcome) : Prop :=
  forall w, exists n o1 w',
    call code n cb [] w = Some (o1, w') /\
    await_ o1 = o /\
    deferred id w' = deferred id w.

(** The same for an action that does not fail. *)
Definition action_succeeds (code : nat -> list value -> prog) (id : nat)
    (cb : value) : Prop :=
  exists v, action_settles code id cb (Normal v).

(** What [defer] rejects. *)
Definition invalid_argument (cb : value) : Prop :=
  typeof cb <> "function" \/ instanceof_Promise cb = true.

(** ** Sample programs *)

(** The function objects used by the examples below.
    - 0 registers 1, 2, 3 and returns ["success"]; 1, 2, 3, ... push their
      own number onto a log;
    - 10 registers 11 (throws ["e1"]) and 12 (throws ["e2"]), then throws
      ["main"];
    - 20 passes a promise to [defer]; 21 registers 1, then passes a string;
    - 30 registers 31, which at teardown registers 1 on the same handle;
    - 40 is the outer, 42 the inner function of a nested use;
    - 50 returns 42 and registers nothing;
    - 60 registers 100, 101, ..., 199, which push 0, 1, ..., 99;
    - 70 registers 71, which at teardown registers itself again. *)
Fixpoint register_from (handle : value) (base count : nat) (k : prog) : prog :=
  match count with
  | O => k
  | S count =>
      Call handle [VFun FunctionProto base]
        (fun _ => register_from handle (S base) count k)
  end.

Definition sample (fid : nat) (args : list value) : prog :=
  if Nat.leb 100 fid then
    Emit (VNum (Z.of_nat (fid - 100))) (Return VUndefined)
  else
  match fid with
  | 0 => Call (arg0 args) [VFun FunctionProto 1] (fun _ =>
         Call (arg0 args) [VFun FunctionProto 2] (fun _ =>
         Call (arg0 args) [VFun FunctionProto 3] (fun _ =>
         Return (VStr "success"))))
  | 10 => Call (arg0 args) [VFun FunctionProto 11] (fun _ =>
          Call (arg0 args) [VFun FunctionProto 12] (fun _ =>
          Throw (VStr "main")))
  | 11 => Throw (VStr "e1")
  | 12 => Throw (VStr "e2")
  | 20 => Call (arg0 args) [VPromise Fulfilled VUndefined] (fun _ =>
          Return VUndefined)
  | 21 => Call (arg0 args) [VFun FunctionProto 1] (fun _ =>
          Call (arg0 args) [VStr "not a function"] (fun _ => Return VUndefined))
  | 30 => Call (arg0 args) [VFun FunctionProto 31] (fun _ => Return VUndefined)
  | 31 => Call (VDeferFn 0) [VFun FunctionProto 1] (fun _ => Return VUndefined)
  | 40 => Call (arg0 args) [VFun FunctionProto 41] (fun _ =>
          Emit (VStr "outer-start") (
          Call VWithDefer [VFun FunctionProto 42] (fun _ =>
          Emit (VStr "outer-end") (Return VUndefined))))
  | 41 => Emit (VStr "outer-cleanup") (Return VUndefined)
  | 42 => Call (arg0 args) [VFun FunctionProto 43] (fun _ =>
          Emit (VStr "inner-work") (Return VUndefined))
  | 43 => Emit (VStr "inner-cleanup") (Return VUndefined)
  | 50 => Return (VNum 42)
  | 60 => register_from (arg0 args) 100 100 (Return VUndefined)
  | 70 => Call (arg0 args) [VFun FunctionProto 71] (fun _ => Return VUndefined)
  | 71 => Call (VDeferFn 0) [VFun FunctionProto 71] (fun _ => Return VUndefined)
  | _ => Emit (VNum (Z.of_nat fid)) (Return VUndefined)
  end.

Definition empty_world : world := World [] [].

(** Replaying on a stack the pushes and pops that a trace records for
    the array of [id]: starting from [stack], every pop removes the
    callback that is then the last one, and [final] is what is left. *)
Fixpoint stack_run (id : nat) (t : list event) (stack final : list value)
  : Prop :=
  match t with
  | [] => stack = final
  | EvPush i cb :: t' =>
      if decide (i = id) then stack_run id t' (stack ++ [cb]) final
      else stack_run id t' stack final
  | EvPop i cb :: t' =>
      if decide (i = id) then
        exists rest, stack = rest ++ [cb] /\ stack_run id t' rest final
      else stack_run id t' stack final
  | _ :: t' => stack_run id t' stack final
  end.

(** More function objects, on top of those of [sample]:
    - 200 registers 11 (throws ["e1"]) and 1, and returns ["kept?"];
    - 210 registers 41, then awaits [withDefer] on 10, which fails;
    - 220 registers its own handle and [withDefer] as cleanup actions. *)
Definition more_samples (fid : nat) (args : list value) : prog :=
  if Nat.eqb fid 200 then
    Call (arg0 args) [VFun FunctionProto 11] (fun _ =>
    Call (arg0 args) [VFun FunctionProto 1] (fun _ =>
    Return (VStr "kept?")))
  else if Nat.eqb fid 210 then
    bind (Call (arg0 args) [VFun FunctionProto 41] (fun _ => Return VUndefined))
      (fun _ => Call VWithDefer [VFun FunctionProto 10]
                  (fun _ => Return VUndefined))
  else if Nat.eqb fid 220 then
    Call (arg0 args) [arg0 args] (fun _ =>
    Call (arg0 args) [VWithDefer] (fun _ => Return VUndefined))
  else sample fid args.

(** ** What the spec asks for, stated on calls *)

(** The callbacks the handle of [id] accepted, in order: what the callers
    of the handle registered. *)
Definition accepted (id : nat) (t : list event) : list value :=
  omap (fun e => match e with
                 | EvAccepted i cb => if decide (i = id) then Some cb else None
                 | _ => None
                 end) t.

(** The failure of a call that returned [raw] and is awaited: the value
    it threw, or the reason the promise it returned rejects with. *)
Definition failure_of (raw : outcome) : option value :=
  match raw with
  | Thrown e => Some e
  | Normal v =>
      match settle v with
      | Thrown e => Some e
      | Normal _ => None
      end
  end.

(** A call that returned [raw] produced [v]: it returned [v], or a
    promise fulfilled with [v]. *)
Definition fulfils (raw : outcome) (v : value) : Prop :=
  exists r, raw = Normal r /\ settle r = Normal v.

(** Teardown as the spec has it (4.1, step 4), as a sequence of calls:
    while the array of [id] is not empty its last callback is removed and
    called with no argument; [calls] lists each callback called with what
    the call returned, in the order of the calls, and [w'] is the world
    the last call leaves. *)
Inductive drains (code : nat -> list value -> prog) (id : nat)
  : world -> list (value * outcome) -> world -> Prop :=
| drains_done w :
    deferred id w = [] ->
    drains code id w [] w
| drains_step w rest cb n raw w2 calls w' :
    deferred id w = rest ++ [cb] ->
    call code n cb [] (log (EvPop id cb) (set_deferred id rest w))
      = Some (raw, w2) ->
    drains code id (log (EvCleanupSettled id cb (await_ raw)) w2) calls w' ->
    drains code id w ((cb, raw) :: calls) w'.

(** [layered pending order]: the callbacks of [pending] (first registered
    first) occur in [order] last registered first, each before all those
    registered before it; what runs in between was registered later. *)
Inductive layered : list value -> list value -> Prop :=
| layered_nil : layered [] []
| layered_snoc pending cb between later :
    layered pending later ->
    layered (pending ++ [cb]) (cb :: between ++ later).

(** Calling [cb] returns [raw] wherever it is called, and leaves the
    array of invocation [id] as it found it. *)
Definition action_returns (code : nat -> list value -> prog) (id : nat)
    (cb : value) (raw : outcome) : Prop :=
  forall w, exists n w',
    call code n cb [] w = Some (raw, w') /\
    deferred id w' = deferred id w.

(** Every push of a run is the push of an accepted registration. *)
Definition recorded (w w' : world) : Prop :=
  exists t, trace w' = trace w ++ t /\
            forall id, pushes id t = accepted id t.

Definition recorded_at (code : nat -> list value -> prog) (n : nat) : Prop :=
  (forall p w o w', exec code n p w = Some (o, w') -> recorded w w') /\
  (forall f args w o w', call code n f args w = Some (o, w') -> recorded w w') /\
  (forall id errors w errors' w',
     drain code n id errors w = Some (errors', w') -> recorded w w') /\
  (forall fn w result errors w',
     collect code n fn w = Some (result, errors, w') -> recorded w w') /\
  (forall fn w o w', withDefer code n fn w = Some (o, w') -> recorded w w').

(** What the spec asks of the outcome (4.1, step 5), when the work
    function returned [raw] and the cleanup actions returned [raws], in
    the order they were called: with no failure the value of the work
    function; otherwise one [AggregateError] of all the failures, the work
    function's first, then the actions' in the order of the calls. *)
Definition aggregates (raw : outcome) (raws : list outcome) (o : outcome)
  : Prop :=
  match omap failure_of (raw :: raws) with
  | [] => exists v, fulfils raw v /\ o = Normal v
  | e :: es => o = Thrown (VAggregateError (e :: es) aggregate_msg)
  end.

(** The run of one invocation, stated on calls: the work function was
    called once, with the handle of a new array, and returned [raw],
    leaving the events [t_work]; then teardown made the calls [calls],
    leaving the events [t_down]; [o] is what was reported and [w'] the
    world afterwards. *)
Definition invocation (code : nat -> list value -> prog) (fn : value)
    (w : world) (raw : outcome) (t_work : list event)
    (calls : list (value * outcome)) (t_down : list event)
    (o : outcome) (w' : world) : Prop :=
  exists m w1 w2,
    call code m fn [VDeferFn (length (heap w))]
      (log (EvEnter (length (heap w))) (alloc w)) = Some (raw, w1) /\
    trace w1 = trace w ++ [EvEnter (length (heap w))] ++ t_work /\
    drains code (length (heap w))
      (log (EvWorkSettled (length (heap w)) (await_ raw)) w1) calls w2 /\
    trace w2 = trace w1 ++ [EvWorkSettled (length (heap w)) (await_ raw)]
                 ++ t_down /\
    w' = log (EvExit (length (heap w)) o) w2.

(** What calling [cb] with no argument throws, when [cb] is a
    registration handle or [withDefer] itself. *)
Definition called_without_argument (cb : value) : option value :=
  match cb with
  | VDeferFn _ => Some (VTypeError defer_msg)
  | VWithDefer => Some (VTypeError withDefer_msg)
  | _ => None
  end.

(** Still more function objects, on top of [more_samples]:
    - 300 registers 301 (returns a promise rejected with 7), 302 (pushes
      onto the log) and 303 (throws an [Error]), then throws ["main"];
    - 310 registers 311 and throws ["main"]; 311 registers 312 on handle 0
      and throws ["eB"]; 312 throws ["eC"];
    - 320 registers 1, 2, 3 and returns a promise fulfilled with
      ["success"]. *)
Definition further_samples (fid : nat) (args : list value) : prog :=
  if Nat.eqb fid 300 then
    Call (arg0 args) [VFun FunctionProto 301] (fun _ =>
    Call (arg0 args) [VFun FunctionProto 302] (fun _ =>
    Call (arg0 args) [VFun FunctionProto 303] (fun _ =>
    Throw (VStr "main"))))
  else if Nat.eqb fid 301 then Return (VPromise Rejected (VNum 7))
  else if Nat.eqb fid 302 then Emit (VStr "302") (Return VUndefined)
  else if Nat.eqb fid 303 then Throw (VError "boom")
  else if Nat.eqb fid 310 then
    Call (arg0 args) [VFun FunctionProto 311] (fun _ => Throw (VStr "main"))
  else if Nat.eqb fid 311 then
    Call (VDeferFn 0) [VFun FunctionProto 312] (fun _ => Throw (VStr "eB"))
  else if Nat.eqb fid 312 then Throw (VStr "eC")
  else if Nat.eqb fid 320 then
    Call (arg0 args) [VFun FunctionProto 1] (fun _ =>
    Call (arg0 args) [VFun FunctionProto 2] (fun _ =>
    Call (arg0 args) [VFun FunctionProto 3] (fun _ =>
    Return (VPromise Fulfilled (VStr "success")))))
  else more_samples fid args.

(** ** Proof tools *)

Ltac invert H := inversion H; subst; clear H.

(** ** More fuel never changes a result *)

Section Fuel.

Variable code : nat -> list value -> prog.

Lemma withDefer_unfold n fn w :
  withDefer code n fn w =
  if negb (is_function fn) then Some (Thrown (VTypeError withDefer_msg), w)
  else match n with
       | O => None
       | S n =>
           match collect code n fn w with
           | None => None
           | Some (result, errors, w2) =>
               Some (finish result errors,
                     log (EvExit (length (heap w)) (finish result errors)) w2)
           end
       end.
Proof. destruct n; reflexivity. Qed.

Lemma fuel_mono_all (n : nat) : mono_at code n.
Proof.
  induction n as [|n (IHe & IHc & IHd & IHk & IHw)]; unfold mono_at.
  - repeat split; try discriminate.
    intros fn w r H m _. rewrite withDefer_unfold in *.
    destruct (negb (is_function fn)); [exact H | discriminate].
  - repeat split.
    + intros p w r H [|m] Hm; [lia|]. assert (n <= m) as Hle by lia.
      destruct p as [v|e|v k|f args k|body handler k]; simpl in *;
        try exact H.
      * eauto.
      * destruct (call code n f args w) as [[o w1]|] eqn:E; [|discriminate].
        rewrite (IHc _ _ _ _ E m Hle). destruct (await_ o); eauto.
      * destruct (exec code n body w) as [[[v|e] w1]|] eqn:E; [| |discriminate];
          rewrite (IHe _ _ _ E m Hle); [eauto|].
        destruct (exec code n (handler e) w1) as [[[v|e'] w2]|] eqn:E';
          [| |discriminate]; rewrite (IHe _ _ _ E' m Hle); eauto.
    + intros f args w r H [|m] Hm; [lia|]. assert (n <= m) as Hle by lia.
      destruct f; simpl in *; try exact H.
      * eauto.
      * destruct (withDefer code n (arg0 args) w) as [[o w1]|] eqn:E;
          [|discriminate].
        rewrite (IHw _ _ _ E m Hle). exact H.
    + intros id errors w r H [|m] Hm; [lia|]. assert (n <= m) as Hle by lia.
      simpl in *. destruct (pop (deferred id w)) as [[cb rest]|]; [|exact H].
      destruct (call code n cb [] _) as [[o w2]|] eqn:E; [|discriminate].
      rewrite (IHc _ _ _ _ E m Hle). eauto.
    + intros fn w r H [|m] Hm; [lia|]. assert (n <= m) as Hle by lia.
      simpl in *.
      destruct (call code n fn _ _) as [[o w1]|] eqn:E; [|discriminate].
      rewrite (IHc _ _ _ _ E m Hle).
      destruct (after_work (await_ o)) as [result errors].
      destruct (drain code n _ _ _) as [[errors' w2]|] eqn:E'; [|discriminate].
      rewrite (IHd _ _ _ _ E' m Hle). exact H.
    + intros fn w r H [|m] Hm; [lia|]. assert (n <= m) as Hle by lia.
      rewrite withDefer_unfold in *.
      destruct (negb (is_function fn)); [exact H|].
      destruct (collect code n fn w) as [[[result errors] w2]|] eqn:E;
        [|discriminate].
      rewrite (IHk _ _ _ E m Hle). exact H.
Qed.

Lemma exec_mono n m p w r :
  exec code n p w = Some r -> n <= m -> exec code m p w = Some r.
Proof. intros H Hm. exact (proj1 (fuel_mono_all n) p w r H m Hm). Qed.

Lemma call_mono n m f args w r :
  call code n f args w = Some r -> n <= m -> call code m f args w = Some r.
Proof.
  intros H Hm. exact (proj1 (proj2 (fuel_mono_all n)) f args w r H m Hm).
Qed.

Lemma drain_mono n m id errors w r :
  drain code n id errors w = Some r -> n <= m ->
  drain code m id errors w = Some r.
Proof.
  intros H Hm.
  exact (proj1 (proj2 (proj2 (fuel_mono_all n))) id errors w r H m Hm).
Qed.

Lemma collect_mono n m fn w r :
  collect code n fn w = Some r -> n <= m -> collect code m fn w = Some r.
Proof.
  intros H Hm.
  exact (proj1 (proj2 (proj2 (proj2 (fuel_mono_all n)))) fn w r H m Hm).
Qed.

Lemma withDefer_mono n m fn w r :
  withDefer code n fn w = Some r -> n <= m -> withDefer code m fn w = Some r.
Proof.
  intros H Hm.
  exact (proj2 (proj2 (proj2 (proj2 (fuel_mono_all n)))) fn w r H m Hm).
Qed.

End Fuel.

(** ** Reading the trace: basic facts *)

Lemma pushes_app id t1 t2 : pushes id (t1 ++ t2) = pushes id t1 ++ pushes id t2.
Proof. apply omap_app. Qed.

Lemma pops_app id t1 t2 : pops id (t1 ++ t2) = pops id t1 ++ pops id t2.
Proof. apply omap_app. Qed.

Lemma thrown_to_app id t1 t2 :
  thrown_to id (t1 ++ t2) = thrown_to id t1 ++ thrown_to id t2.
Proof. apply omap_app. Qed.

Lemma emitted_app t1 t2 : emitted (t1 ++ t2) = emitted t1 ++ emitted t2.
Proof. apply omap_app. Qed.

Lemma failures_app os1 os2 : failures (os1 ++ os2) = failures os1 ++ failures os2.
Proof. apply omap_app. Qed.

Lemma pops_fresh id k t : Forall (fresh k) t -> id < k -> pops id t = [].
Proof.
  intros H Hlt. induction H as [|e t He _ IH]; [reflexivity|].
  change (pops id (e :: t)) with (pops id ([e] ++ t)).
  rewrite pops_app, IH, app_nil_r.
  destruct e as [ | |? ?| |i cb| | |? ?]; try reflexivity.
  unfold pops; simpl. destruct (decide (i = id)) as [->|]; [|reflexivity].
  specialize (He id eq_refl). lia.
Qed.

Lemma thrown_to_fresh id k t : Forall (fresh k) t -> id < k -> thrown_to id t = [].
Proof.
  intros H Hlt. induction H as [|e t He _ IH]; [reflexivity|].
  change (thrown_to id (e :: t)) with (thrown_to id ([e] ++ t)).
  rewrite thrown_to_app, IH, app_nil_r.
  destruct e as [ | |? ?|i [?|?]| |i ? [?|?]| |? ?]; try reflexivity;
    unfold thrown_to; simpl; destruct (decide (i = id)) as [->|];
    try reflexivity; specialize (He id eq_refl); lia.
Qed.

(** *** The array operations *)

Lemma pop_snoc l x : pop (l ++ [x]) = Some (x, l).
Proof.
  induction l as [|y l IH]; simpl; [reflexivity|]. rewrite IH. reflexivity.
Qed.

Lemma pop_spec l :
  match pop l with
  | None => l = []
  | Some (x, r) => l = r ++ [x]
  end.
Proof.
  induction l as [|y l IH] using rev_ind; [reflexivity|].
  rewrite pop_snoc. reflexivity.
Qed.

Lemma deferred_log id e w : deferred id (log e w) = deferred id w.
Proof. reflexivity. Qed.

Lemma deferred_alloc id w :
  id < length (heap w) -> deferred id (alloc w) = deferred id w.
Proof.
  intros H. unfold deferred, alloc; simpl. rewrite lookup_app_l by exact H.
  reflexivity.
Qed.

Lemma deferred_alloc_new w : deferred (length (heap w)) (alloc w) = [].
Proof.
  unfold deferred, alloc; simpl.
  rewrite lookup_app_r by lia. rewrite Nat.sub_diag. reflexivity.
Qed.

Lemma deferred_set_eq id l w :
  id < length (heap w) -> deferred id (set_deferred id l w) = l.
Proof.
  intros H. unfold deferred, set_deferred; simpl.
  rewrite list_lookup_insert_eq by exact H. reflexivity.
Qed.

Lemma deferred_set_ne id id' l w :
  id <> id' -> deferred id' (set_deferred id l w) = deferred id' w.
Proof.
  intros H. unfold deferred, set_deferred; simpl.
  rewrite list_lookup_insert_ne by exact H. reflexivity.
Qed.

Lemma length_heap_set id l w :
  length (heap (set_deferred id l w)) = length (heap w).
Proof. unfold set_deferred; simpl. apply length_insert. Qed.

Lemma length_heap_alloc w : length (heap (alloc w)) = S (length (heap w)).
Proof. unfold alloc; simpl. rewrite length_app; simpl. lia. Qed.

(** *** [extends] is a preorder, and every primitive step extends *)

Lemma extends_refl Q X w : extends Q X w w.
Proof.
  exists []. rewrite app_nil_r. repeat split; [constructor|lia| |constructor].
  intros id _ _. rewrite app_nil_r. reflexivity.
Qed.

Lemma extends_trans Q X w1 w2 w3 :
  extends Q X w1 w2 -> extends Q X w2 w3 -> extends Q X w1 w3.
Proof.
  intros (t1 & Ht1 & HQ1 & Hl1 & Hd1 & Hk1) (t2 & Ht2 & HQ2 & Hl2 & Hd2 & Hk2).
  exists (t1 ++ t2). repeat split.
  - rewrite Ht2, Ht1, app_assoc. reflexivity.
  - apply Forall_app; split; assumption.
  - lia.
  - intros id Hid HX. rewrite Hd2, Hd1, pushes_app, app_assoc by (lia || assumption).
    reflexivity.
  - apply Forall_app; split; [|exact Hk2].
    eapply Forall_impl; [exact Hk1|]. intros e He id Hid.
    specialize (He id Hid). lia.
Qed.

Lemma extends_weaken (Q Q' : event -> Prop) (X X' : nat -> Prop) w w' :
  (forall e, Q e -> Q' e) ->
  (forall id, id < length (heap w) -> X' id -> X id) ->
  extends Q X w w' -> extends Q' X' w w'.
Proof.
  intros HQ HX (t & Ht & HF & Hl & Hd & Hk). exists t.
  repeat split; try assumption.
  - eapply Forall_impl; [exact HF | exact HQ].
  - intros id Hid Hx. apply Hd; [exact Hid | apply HX; assumption].
Qed.

Lemma extends_length Q X w w' :
  extends Q X w w' -> length (heap w) <= length (heap w').
Proof. intros (t & _ & _ & Hl & _). exact Hl. Qed.

Lemma extends_log Q X e w :
  Q e -> known w e -> (forall id, pushes id [e] = []) -> extends Q X w (log e w).
Proof.
  intros He Hk Hp. exists [e]. repeat split.
  - repeat constructor. exact He.
  - simpl. lia.
  - intros id _ _. rewrite Hp, app_nil_r. reflexivity.
  - repeat constructor. exact Hk.
Qed.

Lemma extends_alloc Q X w : extends Q X w (alloc w).
Proof.
  exists []. repeat split.
  - simpl. rewrite app_nil_r. reflexivity.
  - constructor.
  - rewrite length_heap_alloc. lia.
  - intros id Hid _. rewrite app_nil_r. apply deferred_alloc. exact Hid.
  - constructor.
Qed.

Lemma extends_push Q X id cb w :
  Q (EvPush id cb) -> extends Q X w (push id cb w).
Proof.
  intros He. exists [EvPush id cb]. repeat split.
  - repeat constructor. exact He.
  - unfold push. simpl. rewrite length_insert. lia.
  - intros id' Hid _. unfold push. rewrite deferred_log.
    unfold pushes; simpl. destruct (decide (id = id')) as [->|Hne].
    + rewrite deferred_set_eq by exact Hid. reflexivity.
    + rewrite deferred_set_ne by exact Hne. rewrite app_nil_r. reflexivity.
  - repeat constructor. intros i Hi. discriminate Hi.
Qed.

Lemma extends_defer Q X id cb w :
  Q (EvPush id cb) -> extends Q X w (defer id cb w).2.
Proof.
  intros He. unfold defer.
  destruct (negb (is_function cb)); [apply extends_refl|].
  destruct (instanceof_Promise cb); [apply extends_refl|].
  apply extends_push. exact He.
Qed.

Lemma extends_pop Q id cb rest w :
  Q (EvPop id cb) -> id < length (heap w) ->
  extends Q (fun i => i <> id) w (log (EvPop id cb) (set_deferred id rest w)).
Proof.
  intros He Hlt. exists [EvPop id cb]. repeat split.
  - repeat constructor. exact He.
  - simpl. rewrite length_insert. lia.
  - intros id' _ Hne. rewrite deferred_log, deferred_set_ne by congruence.
    rewrite app_nil_r. reflexivity.
  - repeat constructor. intros i Hi. inversion Hi; subst.
    simpl. rewrite length_insert. exact Hlt.
Qed.

Lemma pop_some_known id w r : pop (deferred id w) = Some r -> id < length (heap w).
Proof.
  unfold deferred. destruct (heap w !! id) as [l|] eqn:E; [|discriminate].
  intros _. eapply lookup_lt_Some. exact E.
Qed.

(** ** What any run leaves behind *)

Section History.

Variable code : nat -> list value -> prog.

Lemma fresh_le k k' e : k <= k' -> fresh k' e -> fresh k e.
Proof. intros Hle H id Hid. specialize (H id Hid). lia. Qed.

Lemma fresh_fresh_or id0 k k' e : k <= k' -> fresh k' e -> fresh_or id0 k e.
Proof. intros Hle H id Hid. specialize (H id Hid). lia. Qed.

Lemma fresh_or_le id0 k k' e : k <= k' -> fresh_or id0 k' e -> fresh_or id0 k e.
Proof. intros Hle H id Hid. destruct (H id Hid); [left|right]; lia. Qed.

Lemma fresh_or_fresh id0 k k' e : k <= id0 -> k <= k' -> fresh_or id0 k' e -> fresh k e.
Proof. intros H0 Hle H id Hid. destruct (H id Hid); lia. Qed.

(** Chaining a later run onto an earlier one. *)
Lemma extends_then w1 w2 w3 :
  extends (fresh (length (heap w1))) any_id w1 w2 ->
  extends (fresh (length (heap w2))) any_id w2 w3 ->
  extends (fresh (length (heap w1))) any_id w1 w3.
Proof.
  intros H1 H2. eapply extends_trans; [exact H1|].
  assert (length (heap w1) <= length (heap w2)) as Hle
    by (destruct H1 as (? & _ & _ & ? & _); assumption).
  eapply extends_weaken; [| |exact H2]; [|auto].
  intros e. apply fresh_le. exact Hle.
Qed.

Lemma extends_then_or id w1 w2 w3 :
  extends (fresh_or id (length (heap w1))) (fun i => i <> id) w1 w2 ->
  extends (fresh_or id (length (heap w2))) (fun i => i <> id) w2 w3 ->
  extends (fresh_or id (length (heap w1))) (fun i => i <> id) w1 w3.
Proof.
  intros H1 H2. eapply extends_trans; [exact H1|].
  assert (length (heap w1) <= length (heap w2)) as Hle
    by (destruct H1 as (? & _ & _ & ? & _); assumption).
  eapply extends_weaken; [| |exact H2]; [|auto].
  intros e. apply fresh_or_le. exact Hle.
Qed.

Lemma extends_any_or id w1 w2 :
  extends (fresh (length (heap w1))) any_id w1 w2 ->
  extends (fresh_or id (length (heap w1))) (fun i => i <> id) w1 w2.
Proof.
  apply extends_weaken; [|unfold any_id; auto].
  intros e. apply fresh_fresh_or. lia.
Qed.

Lemma history_all (n : nat) : history_at code n.
Proof.
  induction n as [|n (IHe & IHc & IHd & IHk & IHw)]; unfold history_at.
  - split; [|split; [|split; [|split]]]; try discriminate.
    intros fn w o w' H. rewrite withDefer_unfold in H.
    destruct (negb (is_function fn)); [|discriminate].
    invert H. apply extends_refl.
  - split; [|split; [|split; [|split]]].
    + intros p w o w' H.
      destruct p as [v|e|v k|f args k|body handler k]; simpl in H.
      * invert H. apply extends_refl.
      * invert H. apply extends_refl.
      * eapply extends_then; [|eapply IHe; exact H].
        apply extends_log;
          [intros id; discriminate | intros id; discriminate | reflexivity].
      * destruct (call code n f args w) as [[o1 w1]|] eqn:E; [|discriminate].
        apply IHc in E. destruct (await_ o1).
        -- eapply extends_then; [exact E | eapply IHe; exact H].
        -- invert H. exact E.
      * destruct (exec code n body w) as [[[v|e] w1]|] eqn:E; [| |discriminate];
          apply IHe in E.
        -- eapply extends_then; [exact E | eapply IHe; exact H].
        -- destruct (exec code n (handler e) w1) as [[[v|e'] w2]|] eqn:E';
             [| |discriminate]; apply IHe in E'.
           ++ eapply extends_then; [|eapply IHe; exact H].
              eapply extends_then; eassumption.
           ++ invert H. eapply extends_then; eassumption.
    + intros f args w o w' H. destruct f; simpl in H;
        try (invert H; apply extends_refl).
      * eapply IHe; exact H.
      * assert (extends (fresh (length (heap w))) any_id w
                  (defer id (arg0 args) w).2) as Hdefer
          by (apply extends_defer; intros i; discriminate).
        destruct (defer id (arg0 args) w) as [[v|e] w1]; invert H;
          [|exact Hdefer].
        eapply extends_then; [exact Hdefer|].
        apply extends_log;
          [intros i; discriminate | intros i; discriminate | reflexivity].
      * destruct (withDefer code n (arg0 args) w) as [[o1 w1]|] eqn:E;
          [|discriminate].
        invert H. eapply IHw; exact E.
    + intros id errors w errors' w' H. simpl in H.
      destruct (pop (deferred id w)) as [[cb rest]|] eqn:Hpop.
      2:{ invert H. apply extends_refl. }
      apply pop_some_known in Hpop.
      destruct (call code n cb [] _) as [[o w2]|] eqn:E; [|discriminate].
      apply IHc in E. apply IHd in H.
      pose proof (extends_length _ _ _ _ E) as Hl.
      simpl in Hl. rewrite length_insert in Hl.
      eapply extends_then_or; [|exact H].
      eapply extends_then_or;
        [|apply extends_log;
          [intros i Hi; inversion Hi; auto
          |intros i Hi; inversion Hi; subst; lia | reflexivity]].
      eapply extends_then_or; [|apply extends_any_or; exact E].
      apply extends_pop; [intros i Hi; inversion Hi; auto | exact Hpop].
    + intros fn w result errors w' H. simpl in H.
      destruct (call code n fn _ _) as [[o w1]|] eqn:E; [|discriminate].
      apply IHc in E.
      destruct (after_work (await_ o)) as [result0 errors0].
      destruct (drain code n _ _ _) as [[errors' w2]|] eqn:E'; [|discriminate].
      invert H. apply IHd in E'.
      pose proof (extends_length _ _ _ _ E) as Hl.
      simpl in Hl. rewrite length_app in Hl. simpl in Hl.
      pose proof (extends_length _ _ _ _ E') as Hl'. simpl in Hl'.
      split; [|lia].
      apply extends_weaken
        with (Q := fresh (length (heap w))) (X := fun i => i <> length (heap w));
        [auto | intros i Hi _; lia |].
      eapply extends_trans;
        [|eapply extends_weaken; [| |exact E'];
          [intros e; apply fresh_or_fresh; simpl; lia | auto]].
      eapply extends_trans;
        [|apply extends_log;
          [intros i Hi; inversion Hi; simpl; lia
          |intros i Hi; inversion Hi; subst; lia | reflexivity]].
      eapply extends_trans;
        [|eapply extends_weaken; [| |exact E];
          [intros e; apply fresh_le; simpl; rewrite length_app; lia
          |unfold any_id; auto]].
      eapply extends_trans; [apply extends_alloc|].
      apply extends_log;
        [intros i Hi; inversion Hi; simpl; lia
        |intros i Hi; inversion Hi; subst; rewrite length_heap_alloc; lia
        |reflexivity].
    + intros fn w o w' H. rewrite withDefer_unfold in H.
      destruct (negb (is_function fn)); [invert H; apply extends_refl|].
      destruct (collect code n fn w) as [[[result errors] w2]|] eqn:E;
        [|discriminate].
      invert H. apply IHk in E. destruct E as [E Hl].
      eapply extends_trans; [exact E|].
      apply extends_log;
        [intros i Hi; inversion Hi; simpl; lia
        |intros i Hi; inversion Hi; subst; lia | reflexivity].
Qed.

Lemma exec_history n p w o w' :
  exec code n p w = Some (o, w') ->
  extends (fresh (length (heap w))) any_id w w'.
Proof. exact (proj1 (history_all n) p w o w'). Qed.

Lemma call_history n f args w o w' :
  call code n f args w = Some (o, w') ->
  extends (fresh (length (heap w))) any_id w w'.
Proof. exact (proj1 (proj2 (history_all n)) f args w o w'). Qed.

Lemma drain_history n id errors w errors' w' :
  drain code n id errors w = Some (errors', w') ->
  extends (fresh_or id (length (heap w))) (fun i => i <> id) w w'.
Proof.
  exact (proj1 (proj2 (proj2 (history_all n))) id errors w errors' w').
Qed.


End History.

(** ** The teardown loop *)

Section Teardown.

Variable code : nat -> list value -> prog.

Lemma Forall2_rev {A B} (P : A -> B -> Prop) l k :
  Forall2 P l k -> Forall2 P (rev l) (rev k).
Proof.
  induction 1 as [|x y l k Hxy _ IH]; simpl; [constructor|].
  apply Forall2_app; [exact IH | repeat constructor; exact Hxy].
Qed.

Lemma failures_cons o os : failures (o :: os) = failures [o] ++ failures os.
Proof. exact (failures_app [o] os). Qed.

Lemma thrown_to_cleanup id cb o :
  thrown_to id [EvCleanupSettled id cb o] = failures [o].
Proof.
  unfold thrown_to, failures; simpl. destruct o; [reflexivity|].
  destruct (decide (id = id)); [reflexivity|congruence].
Qed.

Lemma thrown_to_work id o :
  thrown_to id [EvWorkSettled id o] = failures [o].
Proof.
  unfold thrown_to, failures; simpl. destruct o; [reflexivity|].
  destruct (decide (id = id)); [reflexivity|congruence].
Qed.

Lemma pops_pop id cb : pops id [EvPop id cb] = [cb].
Proof.
  unfold pops; simpl. destruct (decide (id = id)); [reflexivity|congruence].
Qed.

Lemma after_cleanup_failures errors o :
  after_cleanup errors o = errors ++ failures [o].
Proof. destruct o; simpl; [rewrite app_nil_r|]; reflexivity. Qed.

Lemma pushes_pop id i cb : pushes id [EvPop i cb] = [].
Proof. reflexivity. Qed.

Lemma pushes_cleanup id i cb o : pushes id [EvCleanupSettled i cb o] = [].
Proof. reflexivity. Qed.

Lemma pops_cleanup id i cb o : pops id [EvCleanupSettled i cb o] = [].
Proof. reflexivity. Qed.

(** Whatever the callbacks do, a loop that terminates has appended to
    [errors] exactly the values thrown to it, in the order they were
    thrown, has removed and run once everything that was pending or
    pushed meanwhile, and leaves the array empty. *)
Lemma drain_settled n : forall id errors w errors' w',
  drain code n id errors w = Some (errors', w') ->
  id < length (heap w) ->
  exists t, trace w' = trace w ++ t /\
            errors' = errors ++ thrown_to id t /\
            deferred id w' = [] /\
            pops id t ≡ₚ deferred id w ++ pushes id t /\
            Forall (fresh_or id (length (heap w))) t.
Proof.
  induction n as [|n IH]; intros id errors w errors' w' H Hid; [discriminate|].
  pose proof (drain_history _ _ _ _ _ _ _ H) as (t & Ht & Hfr & _).
  simpl in H. pose proof (pop_spec (deferred id w)) as Hpop.
  destruct (pop (deferred id w)) as [[cb rest]|].
  2:{ invert H. exists []. rewrite Hpop, !app_nil_r. repeat split; auto. }
  destruct (call code n cb [] _) as [[o w2]|] eqn:E; [|discriminate].
  apply call_history in E. destruct E as (t1 & Ht1 & Hf1 & Hl1 & Hd1 & _).
  simpl in Hl1. rewrite length_insert in Hl1.
  specialize (Hd1 id). simpl in Hd1. rewrite length_insert in Hd1.
  specialize (Hd1 Hid I). rewrite deferred_log, deferred_set_eq in Hd1 by exact Hid.
  apply IH in H; [|simpl; lia].
  destruct H as (t2 & Ht2 & -> & Hd & Hperm & _).
  rewrite deferred_log, Hd1 in Hperm.
  assert (t = [EvPop id cb] ++ t1 ++ [EvCleanupSettled id cb (await_ o)] ++ t2)
    as Et.
  { apply (app_inv_head (trace w)). rewrite <- Ht, Ht2. simpl. rewrite Ht1.
    simpl. rewrite <- !app_assoc. reflexivity. }
  exists t. split; [exact Ht|]. split; [|split; [exact Hd|split; [|exact Hfr]]].
  - rewrite Et, !thrown_to_app, thrown_to_cleanup.
    rewrite (thrown_to_fresh id _ t1 Hf1) by (simpl; rewrite length_insert; lia).
    rewrite after_cleanup_failures, <- app_assoc. reflexivity.
  - rewrite Et, !pops_app, !pushes_app, pops_pop, pops_cleanup, pushes_pop,
      pushes_cleanup.
    rewrite (pops_fresh id _ t1 Hf1) by (simpl; rewrite length_insert; lia).
    simpl. rewrite Hperm, Hpop, <- !app_assoc. simpl.
    apply Permutation_middle.
Qed.

Lemma drain_actions_rev id : forall rc ro,
  Forall2 (action_settles code id) rc ro ->
  forall errors w,
    deferred id w = rev rc -> id < length (heap w) ->
    exists N w' t,
      (forall m, N <= m ->
         drain code m id errors w = Some (errors ++ failures ro, w')) /\
      trace w' = trace w ++ t /\
      pops id t = rc /\
      thrown_to id t = failures ro /\
      deferred id w' = [].
Proof.
  intros rc ro H.
  induction H as [|cb o rc ro Hcb _ IH]; intros errors w Hw Hid.
  - exists 1, w, []. rewrite !app_nil_r. repeat split; auto.
    intros [|m] Hm; [lia|]. simpl. rewrite Hw. reflexivity.
  - simpl in Hw.
    pose (w1 := log (EvPop id cb) (set_deferred id (rev rc) w)).
    destruct (Hcb w1) as (n & o1 & w2 & Hcall & Ho & Hsame).
    pose proof (call_history _ _ _ _ _ _ _ Hcall) as (t1 & Ht1 & Hf1 & Hl1 & _).
    simpl in Hl1. rewrite length_insert in Hl1.
    pose (w3 := log (EvCleanupSettled id cb o) w2).
    destruct (IH (after_cleanup errors o) w3) as (N & w' & t & Hrun & Ht & Hp & Hth & Hd).
    { unfold w3. rewrite deferred_log, Hsame. unfold w1.
      rewrite deferred_log, deferred_set_eq by exact Hid. reflexivity. }
    { simpl. lia. }
    exists (S (Nat.max n N)), w',
      ([EvPop id cb] ++ t1 ++ [EvCleanupSettled id cb o] ++ t).
    split; [|split; [|split; [|split]]].
    + intros [|m] Hm; [lia|]. simpl. rewrite Hw, pop_snoc. fold w1.
      rewrite (call_mono _ _ _ _ _ _ _ Hcall) by lia. rewrite Ho. fold w3.
      rewrite Hrun by lia.
      rewrite after_cleanup_failures, <- app_assoc, <- failures_cons.
      reflexivity.
    + rewrite Ht. simpl. rewrite Ht1. simpl. rewrite <- !app_assoc. reflexivity.
    + rewrite !pops_app, Hp, pops_pop.
      rewrite (pops_fresh id _ t1 Hf1) by (simpl; rewrite length_insert; lia).
      reflexivity.
    + rewrite !thrown_to_app, Hth, thrown_to_cleanup, <- failures_cons.
      rewrite (thrown_to_fresh id _ t1 Hf1) by (simpl; rewrite length_insert; lia).
      reflexivity.
    + exact Hd.
Qed.

(** When every pending action settles in a known way and registers
    nothing, the loop terminates, runs them last to first, once each,
    and collects their failures in that order. *)
Lemma drain_actions id cbs os errors w :
  Forall2 (action_settles code id) cbs os ->
  deferred id w = cbs -> id < length (heap w) ->
  exists N w' t,
    (forall m, N <= m ->
       drain code m id errors w = Some (errors ++ failures (rev os), w')) /\
    trace w' = trace w ++ t /\
    pops id t = rev cbs /\
    thrown_to id t = failures (rev os) /\
    deferred id w' = [].
Proof.
  intros H Hw Hid. apply drain_actions_rev; [|rewrite rev_involutive|];
    auto using Forall2_rev.
Qed.

End Teardown.

(** ** The coordinator *)

Section Coordinator.

Variable code : nat -> list value -> prog.

Lemma is_function_true v : is_function v = true <-> typeof v = "function".
Proof. apply String.eqb_eq. Qed.

Lemma is_function_false v : is_function v = false <-> typeof v <> "function".
Proof. apply String.eqb_neq. Qed.

Lemma finish_nil result : finish result [] = Normal result.
Proof. reflexivity. Qed.

Lemma finish_cons result e errors :
  finish result (e :: errors) = Thrown (VAggregateError (e :: errors) aggregate_msg).
Proof.
  unfold finish. rewrite bool_decide_eq_true_2 by (simpl; lia). reflexivity.
Qed.

Lemma collect_unfold n fn w :
  collect code (S n) fn w =
  let id := length (heap w) in
  match call code n fn [VDeferFn id] (log (EvEnter id) (alloc w)) with
  | None => None
  | Some (o, w1) =>
      match drain code n id (after_work (await_ o)).2
              (log (EvWorkSettled id (await_ o)) w1) with
      | None => None
      | Some (errors', w2) => Some ((after_work (await_ o)).1, errors', w2)
      end
  end.
Proof.
  simpl. destruct (call code n fn _ _) as [[o w1]|]; [|reflexivity].
  destruct (after_work (await_ o)) as [result errors]. reflexivity.
Qed.

(** A settled invocation on a function went through both phases. *)
Lemma withDefer_inv n fn w o w' :
  typeof fn = "function" ->
  withDefer code n fn w = Some (o, w') ->
  let id := length (heap w) in
  exists n' o1 w1 errors w2,
    n = S (S n') /\
    call code n' fn [VDeferFn id] (log (EvEnter id) (alloc w)) = Some (o1, w1) /\
    drain code n' id (after_work (await_ o1)).2
      (log (EvWorkSettled id (await_ o1)) w1) = Some (errors, w2) /\
    o = finish (after_work (await_ o1)).1 errors /\
    w' = log (EvExit id o) w2.
Proof.
  intros Hf H id. rewrite withDefer_unfold in H.
  apply is_function_true in Hf. rewrite Hf in H. simpl in H.
  destruct n as [|[|n]]; [discriminate|discriminate|].
  rewrite collect_unfold in H. cbv zeta in H. fold id in H.
  destruct (call code n fn [VDeferFn id] _) as [[o1 w1]|] eqn:E; [|discriminate].
  simpl in H.
  destruct (drain code n id _ _) as [[errors w2]|] eqn:E'; [|discriminate].
  invert H. exists n, o1, w1, errors, w2. auto.
Qed.

Lemma withDefer_intro n fn w o1 w1 errors w2 :
  typeof fn = "function" ->
  let id := length (heap w) in
  call code n fn [VDeferFn id] (log (EvEnter id) (alloc w)) = Some (o1, w1) ->
  drain code n id (after_work (await_ o1)).2
    (log (EvWorkSettled id (await_ o1)) w1) = Some (errors, w2) ->
  withDefer code (S (S n)) fn w =
  Some (finish (after_work (await_ o1)).1 errors,
        log (EvExit id (finish (after_work (await_ o1)).1 errors)) w2).
Proof.
  intros Hf id Hc Hd. rewrite withDefer_unfold.
  apply is_function_true in Hf. rewrite Hf. simpl negb. cbv iota.
  rewrite collect_unfold. cbv zeta. fold id. rewrite Hc. simpl. rewrite Hd.
  reflexivity.
Qed.

(** *** Validation *)

(** C5: a top-level argument that is not a function makes [withDefer]
    reject with the bare [TypeError "withDefer() expects a function"]:
    with any fuel (nothing is called), in an unchanged world (no array is
    created, no event happens), and the error is not an
    [AggregateError]. *)
Theorem withDefer_rejects_non_function n fn w :
  typeof fn <> "function" ->
  withDefer code n fn w =
    Some (Thrown (VTypeError "withDefer() expects a function"), w) /\
  forall errors message,
    withDefer code n fn w <> Some (Thrown (VAggregateError errors message), w).
Proof.
  intros Hf. apply is_function_false in Hf.
  assert (withDefer code n fn w =
          Some (Thrown (VTypeError "withDefer() expects a function"), w)) as E.
  { rewrite withDefer_unfold, Hf. reflexivity. }
  split; [exact E|]. intros errors message. rewrite E. discriminate.
Qed.

(** C7: an argument that is not a function makes the handle throw
    [TypeError "defer() expects a function"] to its caller, and the world
    is unchanged: nothing is appended to the array. *)
Theorem defer_rejects_non_function n id cb w :
  typeof cb <> "function" ->
  defer id cb w = (Thrown (VTypeError "defer() expects a function"), w) /\
  call code (S n) (VDeferFn id) [cb] w =
    Some (Thrown (VTypeError "defer() expects a function"), w) /\
  deferred id (defer id cb w).2 = deferred id w.
Proof.
  intros Hf. apply is_function_false in Hf.
  assert (defer id cb w = (Thrown (VTypeError "defer() expects a function"), w))
    as E by (unfold defer; rewrite Hf; reflexivity).
  split; [exact E|]. split; [simpl; rewrite E; reflexivity|].
  rewrite E. reflexivity.
Qed.

(** C4: a promise passed to the handle is rejected by the first check,
    with the message of any other non-function; the message written for
    promises is a different string and is not the one thrown. *)
Theorem defer_promise_gets_generic_message id f v w :
  defer id (VPromise f v) w =
    (Thrown (VTypeError "defer() expects a function"), w) /\
  defer id (VStr "not a function") w =
    (Thrown (VTypeError "defer() expects a function"), w) /\
  defer id (VPromise f v) w <> (Thrown (VTypeError defer_promise_msg), w).
Proof.
  split; [reflexivity|]. split; [reflexivity|].
  unfold defer; simpl. intros H. discriminate H.
Qed.

(** X5: the second check of [defer] only fires for a function object whose
    prototype chain was redirected to [Promise.prototype]: the message
    written for promises is thrown for exactly those arguments. *)
Lemma defer_promise_message_iff id cb w :
  (defer id cb w).1 = Thrown (VTypeError defer_promise_msg) <->
  exists fid, cb = VFun PromiseProto fid.
Proof.
  split.
  - unfold defer. destruct cb as [| | | | | | | | | [|] fid| |]; simpl;
      try discriminate. eauto.
  - intros [fid ->]. reflexivity.
Qed.

(** *** Aggregation *)

(** C3: once teardown is over with result [result] and Error Collection
    [errors], the invocation settles at once; it succeeds exactly when
    [errors] is empty, then with [result]; otherwise, even for a single
    entry, it fails with one [AggregateError] holding [errors] as they
    are. *)
Theorem withDefer_succeeds_iff_no_errors n fn w result errors w2 :
  typeof fn = "function" ->
  collect code n fn w = Some (result, errors, w2) ->
  exists o w',
    withDefer code (S n) fn w = Some (o, w') /\
    ((exists v, o = Normal v) <-> errors = []) /\
    (errors = [] -> o = Normal result) /\
    (errors <> [] -> o = Thrown (VAggregateError errors aggregate_msg)).
Proof.
  intros Hf Hc. apply is_function_true in Hf.
  eexists _, _. split.
  { rewrite withDefer_unfold, Hf. simpl negb. cbv iota. rewrite Hc. reflexivity. }
  destruct errors as [|e errors].
  - rewrite finish_nil. repeat split; eauto. congruence.
  - rewrite finish_cons. repeat split; try congruence.
    intros [v Hv]. discriminate Hv.
Qed.

(** *** The two phases *)

Lemma exec_bind n : forall p k w v w1 m r,
  exec code n p w = Some (Normal v, w1) ->
  exec code m (k v) w1 = Some r ->
  exec code (n + m) (bind p k) w = Some r.
Proof.
  induction n as [|n IH]; intros p k w v w1 m r H Hk; [discriminate|].
  destruct p as [x|e|x p|f args k'|body handler k']; simpl in H.
  - invert H. simpl bind. eapply exec_mono; [exact Hk | lia].
  - discriminate.
  - simpl. eapply IH; eassumption.
  - destruct (call code n f args w) as [[o w2]|] eqn:E; [|discriminate].
    destruct (await_ o) as [x|e] eqn:Eo; [|discriminate].
    simpl. rewrite (call_mono _ _ (n + m) _ _ _ _ E) by lia. rewrite Eo.
    eapply IH; eassumption.
  - destruct (exec code n body w) as [[[x|e] w2]|] eqn:E; [| |discriminate].
    + simpl. rewrite (exec_mono _ _ (n + m) _ _ _ E) by lia.
      eapply IH; eassumption.
    + destruct (exec code n (handler e) w2) as [[[x|e'] w3]|] eqn:E';
        [| discriminate | discriminate].
      simpl. rewrite (exec_mono _ _ (n + m) _ _ _ E) by lia.
      rewrite (exec_mono _ _ (n + m) _ _ _ E') by lia.
      eapply IH; eassumption.
Qed.

(** While the work function runs, the array of its invocation holds
    exactly what was pushed, in the order of the pushes, and nothing is
    removed from it. *)
Lemma work_phase n fn w o1 w1 :
  let id := length (heap w) in
  call code n fn [VDeferFn id] (log (EvEnter id) (alloc w)) = Some (o1, w1) ->
  exists t_work,
    trace w1 = trace w ++ [EvEnter id] ++ t_work /\
    deferred id w1 = pushes id t_work /\
    pops id t_work = [] /\
    thrown_to id t_work = [] /\
    id < length (heap w1) /\
    Forall (known w1) t_work /\
    Forall (fresh (S id)) t_work.
Proof.
  intros id H. apply call_history in H.
  destruct H as (t & Ht & Hf & Hl & Hd & Hk).
  simpl in Hl, Hf. rewrite length_app in Hl, Hf. simpl in Hl, Hf.
  rewrite Nat.add_1_r in Hf.
  exists t. split; [|split; [|split; [|split; [|split; [|split; [|exact Hf]]]]]].
  - rewrite Ht. simpl. rewrite <- app_assoc. reflexivity.
  - rewrite (Hd id); [|simpl; rewrite length_app; simpl; lia|exact I].
    rewrite deferred_log. unfold id. rewrite deferred_alloc_new. reflexivity.
  - apply (pops_fresh id _ t Hf). lia.
  - apply (thrown_to_fresh id _ t Hf). lia.
  - fold id in Hl. lia.
  - exact Hk.
Qed.

Lemma failures_rev os : failures (rev os) = rev (failures os).
Proof.
  induction os as [|o os IH]; [reflexivity|].
  change (rev (o :: os)) with (rev os ++ [o]).
  rewrite failures_app, IH, (failures_cons o os), rev_app_distr.
  destruct o; reflexivity.
Qed.

Lemma succeeding_actions id cbs :
  Forall (action_succeeds code id) cbs ->
  exists os, Forall2 (action_settles code id) cbs os /\ failures os = [].
Proof.
  induction 1 as [|cb cbs [v Hv] _ (os & Hos & Hnil)].
  - exists []. split; [constructor | reflexivity].
  - exists (Normal v :: os). split; [constructor; assumption|].
    rewrite failures_cons, Hnil. reflexivity.
Qed.

(** An invocation whose work function settles and whose pending
    actions all settle and register nothing: it settles, having run the
    actions last to first, with the failures collected in that order. *)
Lemma withDefer_actions n0 fn w o1 w1 os :
  typeof fn = "function" ->
  let id := length (heap w) in
  call code n0 fn [VDeferFn id] (log (EvEnter id) (alloc w)) = Some (o1, w1) ->
  Forall2 (action_settles code id) (deferred id w1) os ->
  let out := finish (after_work (await_ o1)).1
               ((after_work (await_ o1)).2 ++ failures (rev os)) in
  exists N w' t_work t_down,
    (forall m, N <= m -> withDefer code m fn w = Some (out, w')) /\
    trace w1 = trace w ++ [EvEnter id] ++ t_work /\
    trace w' = trace w1 ++ [EvWorkSettled id (await_ o1)] ++ t_down
                 ++ [EvExit id out] /\
    pushes id t_work = deferred id w1 /\
    pops id t_work = [] /\
    pops id t_down = rev (pushes id t_work) /\
    deferred id w' = [].
Proof.
  intros Hf id Hc Hos out.
  destruct (work_phase _ _ _ _ _ Hc) as (t_work & Ht & Hd & Hp & _ & Hl & _ & _).
  fold id in Ht, Hd, Hp, Hl.
  destruct (drain_actions code id _ os (after_work (await_ o1)).2
              (log (EvWorkSettled id (await_ o1)) w1) Hos)
    as (N & w2 & t & Hrun & Ht2 & Hp2 & _ & Hd2);
    [apply deferred_log | simpl; exact Hl |].
  exists (S (S (Nat.max n0 N))), (log (EvExit id out) w2), t_work, t.
  split; [|split; [exact Ht|split; [|split; [auto|split; [exact Hp|split]]]]].
  - intros m Hm. eapply withDefer_mono; [|exact Hm].
    unfold out.
    apply (withDefer_intro (Nat.max n0 N) fn w o1 w1 _ w2 Hf);
      [|apply Hrun; lia].
    eapply call_mono; [exact Hc | lia].
  - simpl. rewrite Ht2. simpl. rewrite <- !app_assoc. reflexivity.
  - rewrite Hp2, Hd. reflexivity.
  - rewrite deferred_log. exact Hd2.
Qed.

(** *** Misuse inside the work function *)

Lemma defer_invalid id cb w :
  invalid_argument cb ->
  exists msg, defer id cb w = (Thrown (VTypeError msg), w).
Proof.
  intros [H|H]; unfold defer.
  - apply is_function_false in H. rewrite H. simpl. eauto.
  - destruct (negb (is_function cb)); [eauto|]. rewrite H. eauto.
Qed.

(** C6: the work function [fid] does some work [pre], then calls the
    handle with an invalid argument, outside any [try].  The
    [TypeError] of the handle becomes the work function's failure:
    teardown still runs every pending callback, and [withDefer] fails
    with an [AggregateError] whose first entry is that [TypeError], not
    with the [TypeError] itself. *)
Theorem invalid_registration_is_aggregated n0 proto fid pre bad k w x w1 os :
  let id := length (heap w) in
  (forall args,
     code fid args = bind (pre args) (fun _ => Call (arg0 args) [bad] k)) ->
  invalid_argument bad ->
  exec code n0 (pre [VDeferFn id]) (log (EvEnter id) (alloc w))
    = Some (Normal x, w1) ->
  Forall2 (action_settles code id) (deferred id w1) os ->
  exists N w' msg t_down,
    defer id bad w1 = (Thrown (VTypeError msg), w1) /\
    (forall m, N <= m ->
       withDefer code m (VFun proto fid) w =
         Some (Thrown (VAggregateError
                         (VTypeError msg :: failures (rev os)) aggregate_msg),
               w')) /\
    trace w' = trace w1 ++ [EvWorkSettled id (Thrown (VTypeError msg))]
                 ++ t_down
                 ++ [EvExit id (Thrown (VAggregateError
                       (VTypeError msg :: failures (rev os)) aggregate_msg))] /\
    pops id t_down = rev (deferred id w1).
Proof.
  intros id Hcode Hbad Hpre Hos.
  destruct (defer_invalid id bad w1 Hbad) as [msg Hmsg].
  assert (call code (S (n0 + 2)) (VFun proto fid) [VDeferFn id]
            (log (EvEnter id) (alloc w))
          = Some (Thrown (VTypeError msg), w1)) as Hc.
  { simpl call. rewrite Hcode.
    eapply exec_bind; [exact Hpre|]. simpl. rewrite Hmsg. reflexivity. }
  destruct (withDefer_actions _ (VFun proto fid) _ _ _ _ eq_refl Hc Hos)
    as (N & w' & t_work & t_down & Hrun & Ht & Ht' & Hpu & Hpo & Hpd & _).
  fold id in Hrun, Ht, Ht', Hpu, Hpo, Hpd.
  simpl in Hrun, Ht'. rewrite finish_cons in Hrun, Ht'.
  exists N, w', msg, t_down. rewrite Hpd, Hpu. auto.
Qed.

(** *** Phases and nesting *)

Lemma settle_settled v x : settle v = Normal x -> settle x = Normal x.
Proof.
  revert x. induction v as [| | | | | | | | f v IH |proto fid| |]; intros x H;
    try (invert H; reflexivity).
  - destruct f; simpl in H; [auto|discriminate].
  - destruct proto; simpl in H; [invert H; reflexivity|discriminate].
Qed.


(** The shape of every settled invocation on a function. *)
Lemma withDefer_phases n fn w o w' :
  typeof fn = "function" ->
  withDefer code n fn w = Some (o, w') ->
  let id := length (heap w) in
  exists t_work wo t_down w1,
    trace w' = trace w ++ [EvEnter id] ++ t_work ++ [EvWorkSettled id wo]
                 ++ t_down ++ [EvExit id o] /\
    pops id t_work = [] /\
    pops id t_down ≡ₚ pushes id t_work ++ pushes id t_down /\
    deferred id w' = [] /\
    Forall (fresh (S id)) t_work /\
    Forall (known w1) t_work /\
    Forall (fresh_or id (length (heap w1))) t_down /\
    id < length (heap w1) /\
    (forall v, o = Normal v -> settle v = Normal v).
Proof.
  intros Hf H id.
  destruct (withDefer_inv _ _ _ _ _ Hf H)
    as (n' & o1 & w1 & errors & w2 & -> & Hc & Hd & Ho & ->).
  fold id in Hc, Hd.
  destruct (work_phase _ _ _ _ _ Hc) as (t1 & Ht1 & Hd1 & Hp1 & _ & Hl1 & Hk1 & Hf1).
  fold id in Ht1, Hd1, Hp1, Hl1, Hf1.
  apply drain_settled in Hd; [|simpl; exact Hl1].
  destruct Hd as (t2 & Ht2 & He & Hd2 & Hperm & Hf2).
  exists t1, (await_ o1), t2, w1.
  split; [|split; [exact Hp1|split; [|split; [|split; [exact Hf1|
    split; [exact Hk1|split; [exact Hf2|split; [exact Hl1|]]]]]]]].
  - simpl. rewrite Ht2. simpl. rewrite Ht1. rewrite <- !app_assoc. reflexivity.
  - rewrite Hperm, deferred_log, Hd1. reflexivity.
  - rewrite deferred_log. exact Hd2.
  - intros v Hv. rewrite Hv in Ho. destruct (await_ o1) as [y|e] eqn:Eo.
    + simpl in Ho, He. subst errors. destruct (thrown_to id t2);
        [|rewrite finish_cons in Ho; discriminate].
      rewrite finish_nil in Ho. invert Ho.
      destruct o1 as [z|z]; [|discriminate]. eapply settle_settled. exact Eo.
    + simpl in Ho, He. subst errors. rewrite finish_cons in Ho. discriminate.
Qed.

(** C8 (as the code has it): removals happen only during teardown, but
    the handle appends whenever it is called with a valid callback,
    teardown included.  In every settled invocation nothing is removed
    while the work function runs; teardown removes, once each, everything
    that was pushed during the work function or during teardown itself,
    and leaves the array empty. *)
Theorem appends_any_time_removals_in_teardown n fn w o w' :
  typeof fn = "function" ->
  withDefer code n fn w = Some (o, w') ->
  let id := length (heap w) in
  (forall cb w0, typeof cb = "function" -> instanceof_Promise cb = false ->
     defer id cb w0 = (Normal VUndefined, push id cb w0)) /\
  exists t_work wo t_down,
    trace w' = trace w ++ [EvEnter id] ++ t_work ++ [EvWorkSettled id wo]
                 ++ t_down ++ [EvExit id o] /\
    pops id t_work = [] /\
    pops id t_down ≡ₚ pushes id t_work ++ pushes id t_down /\
    deferred id w' = [].
Proof.
  intros Hf H id. split.
  - intros cb w0 Hcb Hp. unfold defer.
    apply is_function_true in Hcb. rewrite Hcb, Hp. reflexivity.
  - destruct (withDefer_phases _ _ _ _ _ Hf H)
      as (t_work & wo & t_down & w1 & Ht & Hp & Hperm & Hd & _).
    exists t_work, wo, t_down. auto.
Qed.




End Coordinator.

(** ** The sample programs, run *)

(** A callback that only pushes onto a log succeeds and registers nothing. *)
Lemma emitter_settles code id proto fid v :
  (forall args, code fid args = Emit v (Return VUndefined)) ->
  action_settles code id (VFun proto fid) (Normal VUndefined).
Proof.
  intros Hc w. exists 3, (Normal VUndefined), (log (EvEmit v) w).
  simpl. rewrite Hc. auto.
Qed.

Lemma emitter_succeeds code id proto fid v :
  (forall args, code fid args = Emit v (Return VUndefined)) ->
  action_succeeds code id (VFun proto fid).
Proof. intros Hc. exists VUndefined. eapply emitter_settles. exact Hc. Qed.

(** A callback that only throws fails with what it throws. *)
Lemma thrower_settles code id proto fid e :
  (forall args, code fid args = Throw e) ->
  action_settles code id (VFun proto fid) (Thrown e).
Proof.
  intros Hc w. exists 2, (Thrown e), w. simpl. rewrite Hc. auto.
Qed.

(** Scenario: three actions pushing 1, 2, 3, work function returns
    ["success"]: the result is ["success"] and the log reads 3, 2, 1. *)
Example scenario_three_actions :
  exists w', withDefer sample 10 (VFun FunctionProto 0) empty_world
             = Some (Normal (VStr "success"), w') /\
             emitted (trace w') = [VNum 3; VNum 2; VNum 1].
Proof. eexists. split; reflexivity. Qed.

(** Scenario: A fails with ["e1"], B fails with ["e2"], the work function
    throws ["main"]: the aggregate holds ["main"; "e2"; "e1"], and both A
    and B ran. *)
Example scenario_all_fail :
  exists w', withDefer sample 10 (VFun FunctionProto 10) empty_world
             = Some (Thrown (VAggregateError [VStr "main"; VStr "e2"; VStr "e1"]
                               "Errors in defer execution"), w') /\
             pops 0 (trace w') = [VFun FunctionProto 12; VFun FunctionProto 11].
Proof. eexists. split; reflexivity. Qed.

(** Scenario: no registration, the work function returns 42. *)
Example scenario_no_registration :
  exists w', withDefer sample 10 (VFun FunctionProto 50) empty_world
             = Some (Normal (VNum 42), w') /\ pops 0 (trace w') = [].
Proof. eexists. split; reflexivity. Qed.

(** Scenario: 100 registrations with values 0..99: the teardown log reads
    99, 98, ..., 0. *)
Example scenario_hundred_actions :
  exists w', withDefer sample 400 (VFun FunctionProto 60) empty_world
             = Some (Normal VUndefined, w') /\
             emitted (trace w') = rev (map (fun i => VNum (Z.of_nat i)) (seq 0 100)).
Proof. eexists. split; vm_compute; reflexivity. Qed.

(** The nested use of the tests: inner cleanup before the outer work
    function goes on, outer cleanup last. *)
Example scenario_nested :
  exists w', withDefer sample 20 (VFun FunctionProto 40) empty_world
             = Some (Normal VUndefined, w') /\
             emitted (trace w') =
               [VStr "outer-start"; VStr "inner-work"; VStr "inner-cleanup";
                VStr "outer-end"; VStr "outer-cleanup"].
Proof. eexists. split; reflexivity. Qed.

(** A promise handed to [defer] inside a work function: the invocation
    fails with the message of a plain non-function. *)
Example scenario_promise_registration :
  exists w', withDefer sample 10 (VFun FunctionProto 20) empty_world
             = Some (Thrown (VAggregateError
                               [VTypeError "defer() expects a function"]
                               "Errors in defer execution"), w').
Proof. eexists. reflexivity. Qed.

(** ** The claims at the sample programs *)

(** At [withDefer("not a function")]. *)
Lemma withDefer_rejects_non_function_witness :
  withDefer sample 0 (VStr "not a function") empty_world =
    Some (Thrown (VTypeError "withDefer() expects a function"), empty_world) /\
  forall errors message,
    withDefer sample 0 (VStr "not a function") empty_world
    <> Some (Thrown (VAggregateError errors message), empty_world).
Proof.
  apply (withDefer_rejects_non_function sample 0 (VStr "not a function")
           empty_world).
  simpl. discriminate.
Defined.

(** At [defer("cleanup")] on a fresh invocation. *)
Lemma defer_rejects_non_function_witness :
  defer 0 (VStr "cleanup") (alloc empty_world)
    = (Thrown (VTypeError "defer() expects a function"), alloc empty_world) /\
  call sample 1 (VDeferFn 0) [VStr "cleanup"] (alloc empty_world)
    = Some (Thrown (VTypeError "defer() expects a function"), alloc empty_world) /\
  deferred 0 (defer 0 (VStr "cleanup") (alloc empty_world)).2
    = deferred 0 (alloc empty_world).
Proof.
  apply (defer_rejects_non_function sample 0 0 (VStr "cleanup")
           (alloc empty_world)).
  simpl. discriminate.
Defined.

(** At function 10, whose Error Collection ends with three entries. *)
Lemma withDefer_succeeds_iff_no_errors_witness :
  exists result errors w2,
    collect sample 10 (VFun FunctionProto 10) empty_world
      = Some (result, errors, w2) /\
    errors = [VStr "main"; VStr "e2"; VStr "e1"] /\
    exists o w',
      withDefer sample 11 (VFun FunctionProto 10) empty_world = Some (o, w') /\
      ((exists v, o = Normal v) <-> errors = []) /\
      (errors = [] -> o = Normal result) /\
      (errors <> [] -> o = Thrown (VAggregateError errors aggregate_msg)).
Proof.
  eexists _, _, _. split; [reflexivity|]. split; [reflexivity|].
  eapply (withDefer_succeeds_iff_no_errors sample 10 (VFun FunctionProto 10)
            empty_world); reflexivity.
Defined.

(** At function 21: one valid registration, then [defer("not a function")]. *)
Lemma invalid_registration_is_aggregated_witness :
  exists x w1 os,
    invalid_argument (VStr "not a function") /\
    exec sample 10
      (Call (VDeferFn 0) [VFun FunctionProto 1] (fun _ => Return VUndefined))
      (log (EvEnter 0) (alloc empty_world)) = Some (Normal x, w1) /\
    Forall2 (action_settles sample 0) (deferred 0 w1) os /\
    exists N w' msg t_down,
      defer 0 (VStr "not a function") w1 = (Thrown (VTypeError msg), w1) /\
      (forall m, N <= m ->
         withDefer sample m (VFun FunctionProto 21) empty_world =
           Some (Thrown (VAggregateError
                           (VTypeError msg :: failures (rev os)) aggregate_msg),
                 w')) /\
      trace w' = trace w1 ++ [EvWorkSettled 0 (Thrown (VTypeError msg))]
                   ++ t_down
                   ++ [EvExit 0 (Thrown (VAggregateError
                         (VTypeError msg :: failures (rev os)) aggregate_msg))] /\
      pops 0 t_down = rev (deferred 0 w1).
Proof.
  assert (invalid_argument (VStr "not a function")) as Hbad
    by (left; simpl; discriminate).
  assert (Forall2 (action_settles sample 0)
            [VFun FunctionProto 1] [Normal VUndefined])
    as HF by (repeat constructor; eapply emitter_settles; intros; reflexivity).
  eexists _, _, _. split; [exact Hbad|]. split; [reflexivity|].
  split; [exact HF|].
  exact (invalid_registration_is_aggregated sample 10 FunctionProto 21
           (fun args => Call (arg0 args) [VFun FunctionProto 1]
                          (fun _ => Return VUndefined))
           (VStr "not a function") (fun _ => Return VUndefined)
           empty_world _ _ _ (fun args => eq_refl) Hbad eq_refl HF).
Defined.

(** C8 as stated fails: a callback that calls the handle during teardown
    (function 31, registered by 30) gets its argument appended after the
    work function settled. *)
Lemma late_registration_is_appended :
  ~ (forall n o w' t_work wo t_down,
       withDefer sample n (VFun FunctionProto 30) empty_world = Some (o, w') ->
       trace w' = [EvEnter 0] ++ t_work ++ [EvWorkSettled 0 wo] ++ t_down ->
       pushes 0 t_down = []).
Proof.
  intros H.
  specialize (H 10 (Normal VUndefined)
                (World [[]]
                   [EvEnter 0; EvPush 0 (VFun FunctionProto 31);
                    EvAccepted 0 (VFun FunctionProto 31);
                    EvWorkSettled 0 (Normal VUndefined);
                    EvPop 0 (VFun FunctionProto 31);
                    EvPush 0 (VFun FunctionProto 1);
                    EvAccepted 0 (VFun FunctionProto 1);
                    EvCleanupSettled 0 (VFun FunctionProto 31) (Normal VUndefined);
                    EvPop 0 (VFun FunctionProto 1);
                    EvEmit (VNum 1);
                    EvCleanupSettled 0 (VFun FunctionProto 1) (Normal VUndefined);
                    EvExit 0 (Normal VUndefined)])
                [EvPush 0 (VFun FunctionProto 31);
                 EvAccepted 0 (VFun FunctionProto 31)]
                (Normal VUndefined)
                [EvPop 0 (VFun FunctionProto 31);
                 EvPush 0 (VFun FunctionProto 1);
                 EvAccepted 0 (VFun FunctionProto 1);
                 EvCleanupSettled 0 (VFun FunctionProto 31) (Normal VUndefined);
                 EvPop 0 (VFun FunctionProto 1);
                 EvEmit (VNum 1);
                 EvCleanupSettled 0 (VFun FunctionProto 1) (Normal VUndefined);
                 EvExit 0 (Normal VUndefined)]
                eq_refl eq_refl).
  discriminate H.
Qed.

(** At function 30, whose callback registers another one during teardown. *)
Lemma appends_any_time_removals_in_teardown_witness :
  exists o w',
    withDefer sample 10 (VFun FunctionProto 30) empty_world = Some (o, w') /\
    (forall cb w0, typeof cb = "function" -> instanceof_Promise cb = false ->
       defer 0 cb w0 = (Normal VUndefined, push 0 cb w0)) /\
    exists t_work wo t_down,
      trace w' = trace empty_world ++ [EvEnter 0] ++ t_work
                   ++ [EvWorkSettled 0 wo] ++ t_down ++ [EvExit 0 o] /\
      pops 0 t_work = [] /\
      pops 0 t_down ≡ₚ pushes 0 t_work ++ pushes 0 t_down /\
      deferred 0 w' = [].
Proof.
  eexists _, _. split; [reflexivity|].
  eapply (appends_any_time_removals_in_teardown sample 10 (VFun FunctionProto 30)
            empty_world); reflexivity.
Defined.


(** ** Registrations are recorded *)

Lemma accepted_app id t1 t2 :
  accepted id (t1 ++ t2) = accepted id t1 ++ accepted id t2.
Proof. apply omap_app. Qed.

Lemma recorded_refl w : recorded w w.
Proof. exists []. rewrite app_nil_r. auto. Qed.

Lemma recorded_trans w1 w2 w3 : recorded w1 w2 -> recorded w2 w3 -> recorded w1 w3.
Proof.
  intros (t1 & Ht1 & H1) (t2 & Ht2 & H2). exists (t1 ++ t2). split.
  - rewrite Ht2, Ht1, app_assoc. reflexivity.
  - intros id. rewrite pushes_app, accepted_app, H1, H2. reflexivity.
Qed.

Lemma recorded_log e w :
  (forall id, pushes id [e] = []) -> (forall id, accepted id [e] = []) ->
  recorded w (log e w).
Proof.
  intros Hp Ha. exists [e]. split; [reflexivity|].
  intros id. rewrite Hp, Ha. reflexivity.
Qed.

Lemma recorded_same w w' : trace w' = trace w -> recorded w w'.
Proof. intros H. exists []. rewrite app_nil_r. auto. Qed.

Lemma recorded_handle_call id cb w o w' :
  match defer id cb w with
  | (Normal v, w1) => Some (Normal v, log (EvAccepted id cb) w1)
  | (Thrown e, w1) => Some (Thrown e, w1)
  end = Some (o, w') ->
  recorded w w'.
Proof.
  unfold defer. destruct (negb (is_function cb)); [intros H; invert H; apply recorded_refl|].
  destruct (instanceof_Promise cb); intros H; invert H; [apply recorded_refl|].
  exists [EvPush id cb; EvAccepted id cb]. split; [simpl; rewrite <- app_assoc; reflexivity|].
  intros i. unfold pushes, accepted. simpl.
  destruct (decide (id = i)); reflexivity.
Qed.

Section Recorded.

Variable code : nat -> list value -> prog.

Lemma recorded_all (n : nat) : recorded_at code n.
Proof.
  induction n as [|n (IHe & IHc & IHd & IHk & IHw)]; unfold recorded_at.
  - split; [|split; [|split; [|split]]]; try discriminate.
    intros fn w o w' H. rewrite withDefer_unfold in H.
    destruct (negb (is_function fn)); [|discriminate].
    invert H. apply recorded_refl.
  - split; [|split; [|split; [|split]]].
    + intros p w o w' H.
      destruct p as [v|e|v k|f args k|body handler k]; simpl in H.
      * invert H. apply recorded_refl.
      * invert H. apply recorded_refl.
      * eapply recorded_trans; [|eapply IHe; exact H].
        apply recorded_log; reflexivity.
      * destruct (call code n f args w) as [[o1 w1]|] eqn:E; [|discriminate].
        apply IHc in E. destruct (await_ o1).
        -- eapply recorded_trans; [exact E | eapply IHe; exact H].
        -- invert H. exact E.
      * destruct (exec code n body w) as [[[v|e] w1]|] eqn:E; [| |discriminate];
          apply IHe in E.
        -- eapply recorded_trans; [exact E | eapply IHe; exact H].
        -- destruct (exec code n (handler e) w1) as [[[v|e'] w2]|] eqn:E';
             [| |discriminate]; apply IHe in E'.
           ++ eapply recorded_trans; [|eapply IHe; exact H].
              eapply recorded_trans; eassumption.
           ++ invert H. eapply recorded_trans; eassumption.
    + intros f args w o w' H. destruct f; simpl in H;
        try (invert H; apply recorded_refl).
      * eapply IHe; exact H.
      * eapply recorded_handle_call. exact H.
      * destruct (withDefer code n (arg0 args) w) as [[o1 w1]|] eqn:E;
          [|discriminate].
        invert H. eapply IHw; exact E.
    + intros id errors w errors' w' H. simpl in H.
      destruct (pop (deferred id w)) as [[cb rest]|].
      2:{ invert H. apply recorded_refl. }
      destruct (call code n cb [] _) as [[o w2]|] eqn:E; [|discriminate].
      apply IHc in E. apply IHd in H.
      eapply recorded_trans; [|exact H].
      eapply recorded_trans; [|apply recorded_log; reflexivity].
      eapply recorded_trans; [|exact E].
      eapply recorded_trans; [|apply recorded_log; reflexivity].
      apply recorded_same. reflexivity.
    + intros fn w result errors w' H. simpl in H.
      destruct (call code n fn _ _) as [[o w1]|] eqn:E; [|discriminate].
      apply IHc in E.
      destruct (after_work (await_ o)) as [result0 errors0].
      destruct (drain code n _ _ _) as [[errors' w2]|] eqn:E'; [|discriminate].
      invert H. apply IHd in E'.
      eapply recorded_trans; [|exact E'].
      eapply recorded_trans; [|apply recorded_log; reflexivity].
      eapply recorded_trans; [|exact E].
      eapply recorded_trans; [|apply recorded_log; reflexivity].
      apply recorded_same. reflexivity.
    + intros fn w o w' H. rewrite withDefer_unfold in H.
      destruct (negb (is_function fn)); [invert H; apply recorded_refl|].
      destruct (collect code n fn w) as [[[result errors] w2]|] eqn:E;
        [|discriminate].
      invert H. apply IHk in E.
      eapply recorded_trans; [exact E|]. apply recorded_log; reflexivity.
Qed.

Lemma call_recorded n f args w o w' :
  call code n f args w = Some (o, w') -> recorded w w'.
Proof. exact (proj1 (proj2 (recorded_all n)) f args w o w'). Qed.

Lemma drain_recorded n id errors w errors' w' :
  drain code n id errors w = Some (errors', w') -> recorded w w'.
Proof.
  exact (proj1 (proj2 (proj2 (recorded_all n))) id errors w errors' w').
Qed.

End Recorded.

(** ** Teardown as a sequence of calls *)

Lemma omap_cons_app {A B} (f : A -> option B) x l :
  omap f (x :: l) = omap f [x] ++ omap f l.
Proof. exact (omap_app f [x] l). Qed.

Lemma after_cleanup_failure_of errors raw :
  after_cleanup errors (await_ raw) = errors ++ omap failure_of [raw].
Proof.
  destruct raw as [v|e]; simpl; [|reflexivity].
  destruct (settle v); simpl; [rewrite app_nil_r|]; reflexivity.
Qed.

Lemma after_work_failure_of raw :
  (after_work (await_ raw)).2 = omap failure_of [raw].
Proof.
  destruct raw as [v|e]; simpl; [|reflexivity].
  destruct (settle v); reflexivity.
Qed.

Lemma after_work_value raw :
  failure_of raw = None -> fulfils raw (after_work (await_ raw)).1.
Proof.
  destruct raw as [v|e]; simpl; [|discriminate].
  destruct (settle v) as [x|e] eqn:E; [|discriminate].
  intros _. exists v. auto.
Qed.


Lemma fulfils_await raw v : fulfils raw v -> await_ raw = Normal v.
Proof. intros (r & -> & H). exact H. Qed.

Lemma failure_of_await raw e : failure_of raw = Some e -> await_ raw = Thrown e.
Proof.
  destruct raw as [v|x]; simpl.
  - destruct (settle v); [discriminate|]. intros H. invert H. reflexivity.
  - intros H. invert H. reflexivity.
Qed.

Lemma finish_aggregates raw raws :
  aggregates raw raws
    (finish (after_work (await_ raw)).1
       ((after_work (await_ raw)).2 ++ omap failure_of raws)).
Proof.
  unfold aggregates. rewrite omap_cons_app, after_work_failure_of.
  destruct (omap failure_of [raw] ++ omap failure_of raws) as [|e es] eqn:E.
  - rewrite finish_nil. eexists. split; [|reflexivity].
    apply after_work_value. apply app_eq_nil in E. destruct E as [E _].
    simpl in E. destruct (failure_of raw); [discriminate|reflexivity].
  - apply finish_cons.
Qed.

Lemma layered_snoc_inv pending cb l :
  layered (pending ++ [cb]) l ->
  exists between later, l = cb :: between ++ later /\ layered pending later.
Proof.
  intros H. remember (pending ++ [cb]) as s eqn:E.
  destruct H as [|p c b lt H].
  - symmetry in E. apply app_eq_nil in E. destruct E as [_ E]. discriminate.
  - apply app_inj_tail in E. destruct E as [-> ->]. eauto.
Qed.

Lemma layered_app a b : forall l,
  layered (a ++ b) l -> exists l1 l2, l = l1 ++ l2 /\ layered a l2.
Proof.
  induction b as [|x b IH] using rev_ind; intros l H.
  - rewrite app_nil_r in H. exists [], l. auto.
  - rewrite app_assoc in H. apply layered_snoc_inv in H.
    destruct H as (between & later & -> & H').
    destruct (IH _ H') as (l1 & l2 & -> & Hl).
    exists (x :: between ++ l1), l2. split; [|exact Hl].
    simpl. rewrite <- app_assoc. reflexivity.
Qed.

Lemma accepted_pop id i cb : accepted id [EvPop i cb] = [].
Proof. reflexivity. Qed.

Lemma accepted_cleanup id i cb o : accepted id [EvCleanupSettled i cb o] = [].
Proof. reflexivity. Qed.

Section Calls.

Variable code : nat -> list value -> prog.

(** The loop of the code makes exactly the calls of [drains], and has
    appended to [errors] the failures of these calls, in their order. *)
Lemma drain_drains n : forall id errors w errors' w',
  drain code n id errors w = Some (errors', w') ->
  exists calls,
    drains code id w calls w' /\
    errors' = errors ++ omap failure_of (map snd calls).
Proof.
  induction n as [|n IH]; intros id errors w errors' w' H; [discriminate|].
  simpl in H. pose proof (pop_spec (deferred id w)) as Hpop.
  destruct (pop (deferred id w)) as [[cb rest]|].
  2:{ invert H. exists []. split; [constructor; exact Hpop|].
      simpl. rewrite app_nil_r. reflexivity. }
  destruct (call code n cb [] _) as [[raw w2]|] eqn:E; [|discriminate].
  apply IH in H. destruct H as (calls & Hd & ->).
  exists ((cb, raw) :: calls). split.
  - econstructor; eassumption.
  - simpl map. rewrite (omap_cons_app failure_of raw), after_cleanup_failure_of,
      <- app_assoc. reflexivity.
Qed.

(** What a sequence of teardown calls leaves behind. *)
Lemma drains_facts id w calls w' :
  drains code id w calls w' ->
  id < length (heap w) ->
  exists t,
    trace w' = trace w ++ t /\
    pops id t = map fst calls /\
    map fst calls ≡ₚ deferred id w ++ accepted id t /\
    layered (deferred id w) (map fst calls) /\
    deferred id w' = [].
Proof.
  induction 1 as [w Hw|w rest cb n raw w2 calls w' Hw Hc _ IH]; intros Hid.
  - exists []. rewrite Hw, app_nil_r. repeat split; auto. constructor.
  - pose proof (call_history _ _ _ _ _ _ _ Hc) as (t1 & Ht1 & Hf1 & Hl1 & Hd1 & _).
    pose proof (call_recorded _ _ _ _ _ _ _ Hc) as (t1' & Ht1' & Hr1).
    assert (t1' = t1) as -> by
      (apply (app_inv_head (trace (log (EvPop id cb) (set_deferred id rest w))));
       rewrite <- Ht1, <- Ht1'; reflexivity).
    simpl in Hl1, Hf1. rewrite length_insert in Hl1, Hf1.
    specialize (Hd1 id). simpl in Hd1. rewrite length_insert in Hd1.
    specialize (Hd1 Hid I).
    rewrite deferred_log, deferred_set_eq, Hr1 in Hd1 by exact Hid.
    destruct IH as (t2 & Ht2 & Hp2 & Hperm & Hlay & Hd2); [simpl; lia|].
    rewrite deferred_log, Hd1 in Hperm, Hlay.
    exists ([EvPop id cb] ++ t1 ++ [EvCleanupSettled id cb (await_ raw)] ++ t2).
    split; [|split; [|split; [|split; [|exact Hd2]]]].
    + rewrite Ht2. simpl. rewrite Ht1. simpl. rewrite <- !app_assoc. reflexivity.
    + rewrite !pops_app, pops_pop, pops_cleanup, Hp2.
      rewrite (pops_fresh id _ t1 Hf1) by lia. reflexivity.
    + rewrite !accepted_app, accepted_pop, accepted_cleanup. simpl.
      rewrite Hperm, Hw, <- !app_assoc. simpl. apply Permutation_middle.
    + rewrite Hw. simpl. apply layered_app in Hlay.
      destruct Hlay as (l1 & l2 & -> & Hlay). constructor. exact Hlay.
Qed.

(** When every pending action returns the same wherever it is called and
    registers nothing, the calls of teardown are determined: the pending
    actions, last to first, once each. *)
Lemma drains_of_actions id w calls w' :
  drains code id w calls w' ->
  forall raws,
    Forall2 (action_returns code id) (deferred id w) raws ->
    id < length (heap w) ->
    map fst calls = rev (deferred id w) /\ map snd calls = rev raws.
Proof.
  induction 1 as [w Hw|w rest cb n raw w2 calls w' Hw Hc _ IH];
    intros raws Hall Hid.
  - rewrite Hw in *. inversion Hall; subst. auto.
  - rewrite Hw in *. apply Forall2_app_inv_l in Hall.
    destruct Hall as (raws1 & raws2 & H1 & H2 & ->).
    inversion H2 as [|? raw0 ? ? Hcb Hnil]; subst. inversion Hnil; subst.
    destruct (Hcb (log (EvPop id cb) (set_deferred id rest w)))
      as (n0 & w2' & Hc0 & Hsame).
    pose proof (call_mono _ _ (Nat.max n n0) _ _ _ _ Hc (Nat.le_max_l _ _)) as E1.
    pose proof (call_mono _ _ (Nat.max n n0) _ _ _ _ Hc0 (Nat.le_max_r _ _)) as E2.
    rewrite E1 in E2. invert E2.
    rewrite deferred_log, deferred_set_eq in Hsame by exact Hid.
    pose proof (call_history _ _ _ _ _ _ _ Hc) as Hl.
    apply extends_length in Hl. simpl in Hl. rewrite length_insert in Hl.
    destruct (IH raws1) as [Hf Hs].
    { rewrite deferred_log, Hsame. exact H1. }
    { simpl. lia. }
    rewrite deferred_log, Hsame in Hf.
    simpl. rewrite Hf, Hs, !rev_app_distr. auto.
Qed.

(** Every settled invocation on a function is the run of an invocation:
    the work function called once with the new handle, then the calls of
    teardown; what it reports is what the spec asks for. *)
Lemma withDefer_anatomy n fn w o w' :
  typeof fn = "function" ->
  withDefer code n fn w = Some (o, w') ->
  exists raw t_work calls t_down,
    invocation code fn w raw t_work calls t_down o w' /\
    aggregates raw (map snd calls) o /\
    pops (length (heap w)) t_work = [] /\
    pops (length (heap w)) t_down = map fst calls /\
    layered (accepted (length (heap w)) t_work) (map fst calls) /\
    map fst calls ≡ₚ accepted (length (heap w)) t_work
                      ++ accepted (length (heap w)) t_down.
Proof.
  intros Hf H.
  destruct (withDefer_inv _ _ _ _ _ _ Hf H)
    as (n' & raw & w1 & errors & w2 & -> & Hc & Hd & Ho & ->).
  set (id := length (heap w)) in *.
  destruct (work_phase _ _ _ _ _ _ Hc)
    as (t1 & Ht1 & Hd1 & Hp1 & _ & Hl1 & _ & _).
  fold id in Ht1, Hd1, Hp1, Hl1.
  pose proof (call_recorded _ _ _ _ _ _ _ Hc) as (t1' & Ht1' & Hr1).
  assert (t1' = t1) as ->.
  { simpl in Ht1'. rewrite Ht1, <- app_assoc in Ht1'. simpl in Ht1'.
    apply app_inv_head in Ht1'. invert Ht1'. reflexivity. }
  rewrite (Hr1 id) in Hd1.
  apply drain_drains in Hd. destruct Hd as (calls & Hd & ->).
  destruct (drains_facts _ _ _ _ Hd) as (t2 & Ht2 & Hp2 & Hperm & Hlay & _);
    [simpl; exact Hl1|].
  rewrite deferred_log, Hd1 in Hperm, Hlay.
  exists raw, t1, calls, t2.
  split; [|split; [|split; [exact Hp1|split; [exact Hp2|split; [exact Hlay|exact Hperm]]]]].
  - exists n', w1, w2. fold id. repeat split; auto.
    rewrite Ht2. simpl. rewrite <- app_assoc. reflexivity.
  - rewrite Ho. apply finish_aggregates.
Qed.

End Calls.

(** ** Order, failures and values, stated on calls *)

Section Claims.

Variable code : nat -> list value -> prog.

Lemma action_returns_settles id cb raw :
  action_returns code id cb raw -> action_settles code id cb (await_ raw).
Proof.
  intros H w. destruct (H w) as (n & w' & Hc & Hd). exists n, raw, w'. auto.
Qed.

Lemma failures_await raws : failures (map await_ raws) = omap failure_of raws.
Proof.
  induction raws as [|raw raws IH]; [reflexivity|].
  change (map await_ (raw :: raws)) with ([await_ raw] ++ map await_ raws).
  rewrite failures_app, IH, (omap_cons_app failure_of raw). f_equal.
  destruct raw as [v|e]; simpl; [|reflexivity].
  destruct (settle v); reflexivity.
Qed.

Lemma omap_failure_rev raws :
  omap failure_of (rev raws) = rev (omap failure_of raws).
Proof. rewrite <- !failures_await, map_rev. apply failures_rev. Qed.

Lemma omap_failure_cons raw raws :
  omap failure_of (raw :: raws) =
  match failure_of raw with
  | Some e => e :: omap failure_of raws
  | None => omap failure_of raws
  end.
Proof. reflexivity. Qed.

Lemma finish_nonempty result errors :
  errors <> [] ->
  finish result errors = Thrown (VAggregateError errors aggregate_msg).
Proof. destruct errors; [congruence|]. intros _. apply finish_cons. Qed.

(** What the work function registered is what is pending when it
    returns. *)
Lemma work_registered n fn w raw w1 t_work :
  call code n fn [VDeferFn (length (heap w))]
    (log (EvEnter (length (heap w))) (alloc w)) = Some (raw, w1) ->
  trace w1 = trace w ++ [EvEnter (length (heap w))] ++ t_work ->
  deferred (length (heap w)) w1 = accepted (length (heap w)) t_work /\
  length (heap w) < length (heap w1).
Proof.
  intros Hc Ht.
  destruct (work_phase _ _ _ _ _ _ Hc) as (t1 & Ht1 & Hd1 & _ & _ & Hl1 & _ & _).
  pose proof (call_recorded _ _ _ _ _ _ _ Hc) as (t1' & Ht1' & Hr1).
  assert (t1 = t_work) as ->
    by (rewrite Ht in Ht1; apply app_inv_head in Ht1; invert Ht1; reflexivity).
  assert (t1' = t_work) as ->.
  { simpl in Ht1'. rewrite Ht, <- app_assoc in Ht1'. simpl in Ht1'.
    apply app_inv_head in Ht1'. invert Ht1'. reflexivity. }
  rewrite (Hr1 (length (heap w))) in Hd1. auto.
Qed.

(** An invocation whose work function returned and whose registered
    actions return the same wherever they are called and register
    nothing: it settles, and its run is determined. *)
Lemma withDefer_of_actions n0 fn w raw w1 t_work raws :
  typeof fn = "function" ->
  call code n0 fn [VDeferFn (length (heap w))]
    (log (EvEnter (length (heap w))) (alloc w)) = Some (raw, w1) ->
  trace w1 = trace w ++ [EvEnter (length (heap w))] ++ t_work ->
  Forall2 (action_returns code (length (heap w)))
    (accepted (length (heap w)) t_work) raws ->
  exists N o w' calls t_down,
    (forall m, N <= m -> withDefer code m fn w = Some (o, w')) /\
    invocation code fn w raw t_work calls t_down o w' /\
    map fst calls = rev (accepted (length (heap w)) t_work) /\
    map snd calls = rev raws /\
    aggregates raw (rev raws) o.
Proof.
  intros Hf Hc Ht Hall.
  destruct (work_registered _ _ _ _ _ _ Hc Ht) as [Hreg Hlt].
  assert (Forall2 (action_settles code (length (heap w)))
            (deferred (length (heap w)) w1) (map await_ raws)) as Hos.
  { rewrite Hreg. apply Forall2_fmap_r.
    eapply Forall2_impl; [exact Hall|]. intros cb r. apply action_returns_settles. }
  destruct (withDefer_actions _ _ _ _ _ _ _ Hf Hc Hos)
    as (N & w' & _ & _ & Hrun & _).
  pose proof (Hrun N (Nat.le_refl N)) as HN.
  destruct (withDefer_anatomy _ _ _ _ _ _ Hf HN)
    as (raw' & t_work' & calls & t_down & Hinv & Hagg & _).
  destruct Hinv as (m & w1' & w2 & Hc' & Ht' & Hd & Ht2 & Hw').
  pose proof (call_mono _ _ (Nat.max n0 m) _ _ _ _ Hc (Nat.le_max_l _ _)) as E1.
  pose proof (call_mono _ _ (Nat.max n0 m) _ _ _ _ Hc' (Nat.le_max_r _ _)) as E2.
  rewrite E1 in E2. invert E2.
  assert (t_work' = t_work) as ->
    by (rewrite Ht in Ht'; apply app_inv_head in Ht'; invert Ht'; reflexivity).
  destruct (drains_of_actions _ _ _ _ _ Hd raws) as [Hfst Hsnd].
  { rewrite deferred_log, Hreg. exact Hall. }
  { simpl. exact Hlt. }
  rewrite deferred_log, Hreg in Hfst. rewrite Hsnd in Hagg.
  eexists N, _, _, calls, t_down. split; [exact Hrun|].
  split; [|auto]. exists m, w1', w2. auto.
Qed.


(** C2 (as the code has it): (1) the work function fails with [e] and
    the callbacks it registered return [raws] (one per callback, in
    registration order) wherever they are called, and register nothing.
    Then [withDefer] settles; teardown consists of calls of the registered
    callbacks, once each, in the reverse of the order of registration; and
    the [AggregateError] holds [e] followed by the callbacks' failures in
    that order, one entry more than there are failing callbacks.
    (2) Whatever the callbacks do, in every settled invocation whose work
    function fails with [e], every accepted registration is called
    exactly once, last registered first among those pending, and the
    [AggregateError] holds [e] followed by the failures of the calls in
    the order of the calls. *)
Theorem withDefer_failed_work_runs_all_actions :
  (forall n0 fn w raw w1 t_work e raws,
     typeof fn = "function" ->
     call code n0 fn [VDeferFn (length (heap w))]
       (log (EvEnter (length (heap w))) (alloc w)) = Some (raw, w1) ->
     trace w1 = trace w ++ [EvEnter (length (heap w))] ++ t_work ->
     failure_of raw = Some e ->
     Forall2 (action_returns code (length (heap w)))
       (accepted (length (heap w)) t_work) raws ->
     exists N w' calls t_down errors,
       (forall m, N <= m ->
          withDefer code m fn w =
            Some (Thrown (VAggregateError errors aggregate_msg), w')) /\
       errors = e :: omap failure_of (rev raws) /\
       length errors = 1 + length (omap failure_of raws) /\
       invocation code fn w raw t_work calls t_down
         (Thrown (VAggregateError errors aggregate_msg)) w' /\
       map fst calls = rev (accepted (length (heap w)) t_work) /\
       map snd calls = rev raws) /\
  (forall n fn w o w',
     typeof fn = "function" ->
     withDefer code n fn w = Some (o, w') ->
     exists raw t_work calls t_down,
       invocation code fn w raw t_work calls t_down o w' /\
       layered (accepted (length (heap w)) t_work) (map fst calls) /\
       map fst calls ≡ₚ accepted (length (heap w)) t_work
                         ++ accepted (length (heap w)) t_down /\
       forall e, failure_of raw = Some e ->
         o = Thrown (VAggregateError
                       (e :: omap failure_of (map snd calls)) aggregate_msg)).
Proof.
  split.
  - intros n0 fn w raw w1 t_work e raws Hf Hc Ht He Hall.
    destruct (withDefer_of_actions _ _ _ _ _ _ _ Hf Hc Ht Hall)
      as (N & o & w' & calls & t_down & Hrun & Hinv & Hfst & Hsnd & Hagg).
    unfold aggregates in Hagg. rewrite omap_failure_cons, He in Hagg. subst o.
    exists N, w', calls, t_down, (e :: omap failure_of (rev raws)).
    split; [exact Hrun|]. split; [reflexivity|]. split; [|auto].
    simpl. rewrite omap_failure_rev, length_rev. reflexivity.
  - intros n fn w o w' Hf H.
    destruct (withDefer_anatomy _ _ _ _ _ _ Hf H)
      as (raw & t_work & calls & t_down & Hinv & Hagg & _ & _ & Hlay & Hperm).
    exists raw, t_work, calls, t_down.
    split; [exact Hinv|]. split; [exact Hlay|]. split; [exact Hperm|].
    intros e He. unfold aggregates in Hagg.
    rewrite omap_failure_cons, He in Hagg. exact Hagg.
Qed.

(** C10: in every settled invocation on a function, the work function
    was called once and teardown made its calls; the entries of the
    [AggregateError] are exactly the failures of these calls, each the
    value that was thrown or the reason of the rejected promise that was
    returned, unchanged, the work function's first and then the
    callbacks' in the order of the calls; when no call failed there is
    no [AggregateError] and the invocation succeeds. *)
Theorem aggregate_holds_thrown_values n fn w o w' :
  typeof fn = "function" ->
  withDefer code n fn w = Some (o, w') ->
  exists raw t_work calls t_down,
    invocation code fn w raw t_work calls t_down o w' /\
    match omap failure_of (raw :: map snd calls) with
    | [] => exists v, fulfils raw v /\ o = Normal v
    | e :: es => o = Thrown (VAggregateError (e :: es) aggregate_msg)
    end.
Proof.
  intros Hf H.
  destruct (withDefer_anatomy _ _ _ _ _ _ Hf H)
    as (raw & t_work & calls & t_down & Hinv & Hagg & _).
  exists raw, t_work, calls, t_down. split; [exact Hinv | exact Hagg].
Qed.

End Claims.

(** ** Further properties of [defer] and [withDefer] *)

Lemma stack_run_app id t1 : forall t2 s s1 s2,
  stack_run id t1 s s1 -> stack_run id t2 s1 s2 ->
  stack_run id (t1 ++ t2) s s2.
Proof.
  induction t1 as [|e t1 IH]; intros t2 s s1 s2 H1 H2.
  - simpl in H1. subst. exact H2.
  - destruct e as [ |i|i cb|i o|i cb|i cb o|i o|i cb]; simpl in *;
      try (eapply IH; eassumption).
    + destruct (decide (i = id)); eapply IH; eassumption.
    + destruct (decide (i = id)); [|eapply IH; eassumption].
      destruct H1 as (rest & -> & H1). exists rest. split; [reflexivity|].
      eapply IH; eassumption.
Qed.

Lemma stack_run_fresh id k t : forall s,
  Forall (fresh k) t -> id < k -> stack_run id t s (s ++ pushes id t).
Proof.
  induction t as [|e t IH]; intros s H Hlt.
  - simpl. rewrite app_nil_r. reflexivity.
  - apply Forall_cons in H. destruct H as [He H].
    change (pushes id (e :: t)) with (pushes id ([e] ++ t)).
    rewrite pushes_app.
    destruct e as [ |i|i cb|i o|i cb|i cb o|i o|i cb]; simpl;
      try (apply IH; assumption).
    + unfold pushes at 1. simpl. destruct (decide (i = id)).
      * simpl. fold (pushes id t).
        replace (s ++ cb :: pushes id t) with ((s ++ [cb]) ++ pushes id t)
          by (rewrite <- app_assoc; reflexivity).
        apply IH; assumption.
      * apply IH; assumption.
    + destruct (decide (i = id)) as [->|]; [|apply IH; assumption].
      specialize (He id eq_refl). lia.
Qed.

Section Further.

Variable code : nat -> list value -> prog.

(** The loop pops in stack order whatever its callbacks do, and ends on
    the empty stack. *)
Lemma drain_stack n : forall id errors w errors' w',
  drain code n id errors w = Some (errors', w') ->
  id < length (heap w) ->
  exists t, trace w' = trace w ++ t /\ stack_run id t (deferred id w) [].
Proof.
  induction n as [|n IH]; intros id errors w errors' w' H Hid; [discriminate|].
  simpl in H. pose proof (pop_spec (deferred id w)) as Hpop.
  destruct (pop (deferred id w)) as [[cb rest]|].
  2:{ invert H. exists []. rewrite app_nil_r. split; [reflexivity|exact Hpop]. }
  destruct (call code n cb [] _) as [[o w2]|] eqn:E; [|discriminate].
  apply call_history in E. destruct E as (t1 & Ht1 & Hf1 & Hl1 & Hd1 & _).
  simpl in Hl1, Hf1. rewrite length_insert in Hl1, Hf1.
  specialize (Hd1 id). simpl in Hd1. rewrite length_insert in Hd1.
  specialize (Hd1 Hid I). rewrite deferred_log, deferred_set_eq in Hd1 by exact Hid.
  apply IH in H; [|simpl; lia].
  destruct H as (t2 & Ht2 & Hrun). rewrite deferred_log, Hd1 in Hrun.
  exists ([EvPop id cb] ++ t1 ++ [EvCleanupSettled id cb (await_ o)] ++ t2).
  split.
  - rewrite Ht2. simpl. rewrite Ht1. simpl. rewrite <- !app_assoc. reflexivity.
  - rewrite Hpop. simpl. destruct (decide (id = id)); [|congruence].
    exists rest. split; [reflexivity|].
    eapply stack_run_app; [apply (stack_run_fresh id _ t1 rest Hf1 Hid)|].
    simpl. exact Hrun.
Qed.

Lemma withDefer_allocates n fn w o w' :
  typeof fn = "function" ->
  withDefer code n fn w = Some (o, w') ->
  length (heap w) < length (heap w').
Proof.
  intros Hf H.
  destruct (withDefer_inv _ _ _ _ _ _ Hf H)
    as (n' & o1 & w1 & errors & w2 & -> & Hc & Hd & _ & ->).
  apply call_history, extends_length in Hc.
  apply drain_history, extends_length in Hd.
  simpl in Hc, Hd. rewrite length_app in Hc. simpl in Hc. simpl. lia.
Qed.


(** X2: in every settled invocation on a function the array is used as a
    stack: replaying the recorded pushes and pops from the empty stack,
    every callback is popped when it is the most recently pushed one still
    pending, also when callbacks push during teardown, and nothing is
    left at the end. *)
Theorem withDefer_pops_in_stack_order n fn w o w' :
  typeof fn = "function" ->
  withDefer code n fn w = Some (o, w') ->
  exists t,
    trace w' = trace w ++ t /\
    stack_run (length (heap w)) t [] [].
Proof.
  intros Hf H.
  destruct (withDefer_inv _ _ _ _ _ _ Hf H)
    as (n' & o1 & w1 & errors & w2 & -> & Hc & Hd & _ & ->).
  set (id := length (heap w)) in *.
  destruct (work_phase _ _ _ _ _ _ Hc)
    as (t1 & Ht1 & Hd1 & _ & _ & Hl1 & _ & Hf1).
  fold id in Ht1, Hd1, Hl1, Hf1.
  apply drain_stack in Hd; [|simpl; exact Hl1].
  destruct Hd as (t2 & Ht2 & Hrun). rewrite deferred_log, Hd1 in Hrun.
  exists ([EvEnter id] ++ t1 ++ [EvWorkSettled id (await_ o1)] ++ t2
            ++ [EvExit id o]).
  split.
  - simpl. rewrite Ht2. simpl. rewrite Ht1. rewrite <- !app_assoc. reflexivity.
  - simpl.
    eapply stack_run_app;
      [apply (stack_run_fresh id (S id) t1 [] Hf1); lia|].
    simpl. eapply stack_run_app; [exact Hrun|]. reflexivity.
Qed.

(** X3: the work function succeeds with [v] but at least one of its
    callbacks fails: [withDefer] fails with an [AggregateError] that holds
    only the callbacks' failures, in the order they ran; [v] is not
    returned. *)
Theorem cleanup_failure_discards_result n0 fn w o1 w1 v os :
  typeof fn = "function" ->
  let id := length (heap w) in
  call code n0 fn [VDeferFn id] (log (EvEnter id) (alloc w)) = Some (o1, w1) ->
  await_ o1 = Normal v ->
  Forall2 (action_settles code id) (deferred id w1) os ->
  failures os <> [] ->
  exists N w',
    forall m, N <= m ->
      withDefer code m fn w =
        Some (Thrown (VAggregateError (failures (rev os)) aggregate_msg), w').
Proof.
  intros Hf id Hc Hv Hos Hne.
  destruct (withDefer_actions _ _ _ _ _ _ _ Hf Hc Hos)
    as (N & w' & _ & _ & Hrun & _).
  rewrite Hv in Hrun. simpl in Hrun.
  destruct (failures (rev os)) as [|e es] eqn:E.
  - rewrite failures_rev in E. apply (f_equal (@rev value)) in E.
    rewrite rev_involutive in E. contradiction.
  - rewrite finish_cons in Hrun. exists N, w'. exact Hrun.
Qed.

(** X4: a work function that awaits an inner [withDefer] outside any
    [try]: when the inner invocation fails with [a], [a] is the outer work
    function's failure and becomes one entry, the first, of the outer
    [AggregateError]; an inner [AggregateError] is nested, not
    flattened. *)
Theorem inner_failure_is_one_entry n0 n1 proto fid pre inner k w x w1 a w2 os :
  let id := length (heap w) in
  (forall args,
     code fid args = bind (pre args) (fun _ => Call VWithDefer [inner] k)) ->
  exec code n0 (pre [VDeferFn id]) (log (EvEnter id) (alloc w))
    = Some (Normal x, w1) ->
  withDefer code n1 inner w1 = Some (Thrown a, w2) ->
  Forall2 (action_settles code id) (deferred id w2) os ->
  (typeof inner = "function" ->
     exists errors, a = VAggregateError errors aggregate_msg) /\
  exists N w',
    forall m, N <= m ->
      withDefer code m (VFun proto fid) w =
        Some (Thrown (VAggregateError (a :: failures (rev os)) aggregate_msg),
              w').
Proof.
  intros id Hcode Hpre Hin Hos. split.
  - intros Hf.
    destruct (withDefer_inv _ _ _ _ _ _ Hf Hin)
      as (n' & o1 & w3 & errors & w4 & _ & _ & _ & Ho & _).
    unfold finish in Ho. destruct (bool_decide _); [|discriminate].
    invert Ho. eauto.
  - assert (call code (S (n0 + S (S n1))) (VFun proto fid) [VDeferFn id]
              (log (EvEnter id) (alloc w)) = Some (Thrown a, w2)) as Hc.
    { simpl call. rewrite Hcode.
      eapply exec_bind; [exact Hpre|]. simpl. rewrite Hin. reflexivity. }
    destruct (withDefer_actions _ _ (VFun proto fid) _ _ _ _ eq_refl Hc Hos)
      as (N & w' & _ & _ & Hrun & _).
    simpl in Hrun. rewrite finish_cons in Hrun. exists N, w'. exact Hrun.
Qed.

(** X6: a valid registration returns [undefined], appends the callback
    at the end of the array of its own invocation, and leaves every other
    array, and the number of arrays, as they were. *)
Theorem defer_appends_at_end id cb w :
  typeof cb = "function" ->
  instanceof_Promise cb = false ->
  id < length (heap w) ->
  (defer id cb w).1 = Normal VUndefined /\
  deferred id (defer id cb w).2 = deferred id w ++ [cb] /\
  (forall id', id' <> id ->
     deferred id' (defer id cb w).2 = deferred id' w) /\
  length (heap (defer id cb w).2) = length (heap w).
Proof.
  intros Hf Hp Hid. apply is_function_true in Hf.
  unfold defer. rewrite Hf, Hp. simpl.
  split; [reflexivity|]. split; [|split].
  - fold (set_deferred id (deferred id w ++ [cb]) w).
    change (deferred id (log (EvPush id cb)
              (set_deferred id (deferred id w ++ [cb]) w))
            = deferred id w ++ [cb]).
    rewrite deferred_log. apply deferred_set_eq. exact Hid.
  - intros id' Hne.
    change (deferred id' (log (EvPush id cb)
              (set_deferred id (deferred id w ++ [cb]) w))
            = deferred id' w).
    rewrite deferred_log. apply deferred_set_ne. congruence.
  - apply length_insert.
Qed.

(** X7: a handle that outlives its invocation still accepts callbacks,
    but nothing runs them: registering on the handle of a settled
    invocation returns [undefined] and stores the callback, and whatever
    code runs afterwards, the callback is never popped and stays
    stored. *)
Theorem registration_after_settling_never_runs n fn w o w' cb :
  typeof fn = "function" ->
  withDefer code n fn w = Some (o, w') ->
  typeof cb = "function" ->
  instanceof_Promise cb = false ->
  let id := length (heap w) in
  (defer id cb w').1 = Normal VUndefined /\
  deferred id (defer id cb w').2 = [cb] /\
  forall m p o3 w3,
    exec code m p (defer id cb w').2 = Some (o3, w3) ->
    exists t,
      trace w3 = trace (defer id cb w').2 ++ t /\
      pops id t = [] /\
      deferred id w3 = cb :: pushes id t.
Proof.
  intros Hf H Hcb Hp id.
  pose proof (withDefer_allocates _ _ _ _ _ Hf H) as Hl. fold id in Hl.
  destruct (withDefer_phases _ _ _ _ _ _ Hf H)
    as (_ & _ & _ & _ & _ & _ & _ & Hempty & _).
  fold id in Hempty.
  apply is_function_true in Hcb.
  assert (defer id cb w' = (Normal VUndefined, push id cb w')) as E
    by (unfold defer; rewrite Hcb, Hp; reflexivity).
  rewrite E. simpl.
  assert (deferred id (push id cb w') = [cb]) as Hd.
  { unfold push. rewrite deferred_log, deferred_set_eq by exact Hl.
    rewrite Hempty. reflexivity. }
  split; [reflexivity|]. split; [exact Hd|].
  intros m p o3 w3 Hrun. apply exec_history in Hrun.
  destruct Hrun as (t & Ht & Hfr & _ & Hdt & _).
  assert (id < length (heap (push id cb w'))) as Hl'
    by (simpl; rewrite length_insert; exact Hl).
  exists t. split; [exact Ht|]. split; [apply (pops_fresh id _ t Hfr Hl')|].
  rewrite (Hdt id Hl' I), Hd. reflexivity.
Qed.

Lemma argless_returns id cb e :
  called_without_argument cb = Some e ->
  exists raw, action_returns code id cb raw /\ failure_of raw = Some e.
Proof.
  destruct cb; try discriminate; intros H; invert H.
  - exists (Thrown (VTypeError defer_msg)). split; [|reflexivity].
    intros w. exists 1, w. auto.
  - exists (Normal (VPromise Rejected (VTypeError withDefer_msg))).
    split; [|reflexivity]. intros w. exists 2, w. auto.
Qed.

(** X8: teardown calls the callbacks without arguments.  So when the
    callbacks the work function registered are registration handles or
    [withDefer] itself, which [defer] accepts as functions, each of them
    fails when teardown calls it, with the [TypeError] for a missing
    function of [defer] or of [withDefer], and [withDefer] fails with these
    errors, last registered first, after the work function's failure if
    there is one. *)
Theorem callbacks_are_called_without_argument n0 fn w raw w1 t_work es :
  typeof fn = "function" ->
  call code n0 fn [VDeferFn (length (heap w))]
    (log (EvEnter (length (heap w))) (alloc w)) = Some (raw, w1) ->
  trace w1 = trace w ++ [EvEnter (length (heap w))] ++ t_work ->
  Forall2 (fun cb e => called_without_argument cb = Some e)
    (accepted (length (heap w)) t_work) es ->
  es <> [] ->
  exists N w',
    forall m, N <= m ->
      withDefer code m fn w =
        Some (Thrown (VAggregateError (omap failure_of [raw] ++ rev es)
                        aggregate_msg), w').
Proof.
  intros Hf Hc Ht Hall Hne.
  assert (exists raws,
            Forall2 (action_returns code (length (heap w)))
              (accepted (length (heap w)) t_work) raws /\
            omap failure_of raws = es) as (raws & Hraws & Hes).
  { clear -Hall. induction Hall as [|cb e cbs es Hcb _ (raws & IH & E)].
    - exists []. split; [constructor|reflexivity].
    - destruct (argless_returns (length (heap w)) cb e Hcb) as (raw & Hr & Hfail).
      exists (raw :: raws). split; [constructor; assumption|].
      rewrite omap_failure_cons, Hfail, E. reflexivity. }
  destruct (withDefer_of_actions _ _ _ _ _ _ _ _ Hf Hc Ht Hraws)
    as (N & o & w' & _ & _ & Hrun & _ & _ & _ & Hagg).
  unfold aggregates in Hagg.
  rewrite omap_cons_app, omap_failure_rev, Hes in Hagg.
  destruct (omap failure_of [raw] ++ rev es) as [|x xs] eqn:E.
  - apply app_eq_nil in E. destruct E as [_ E].
    apply (f_equal (@rev value)) in E. rewrite rev_involutive in E.
    contradiction.
  - subst o. exists N, w'. exact Hrun.
Qed.

(** The loop never ends on a callback that, whenever it completes, has
    put itself back on top of the array. *)
Lemma drain_self_registering id cb :
  (forall n w o w', id < length (heap w) ->
     call code n cb [] w = Some (o, w') ->
     exists l, deferred id w' = deferred id w ++ l ++ [cb]) ->
  forall n errors w rest,
    deferred id w = rest ++ [cb] ->
    drain code n id errors w = None.
Proof.
  intros Hcb. induction n as [|n IH]; intros errors w rest Hw; [reflexivity|].
  simpl. assert (id < length (heap w)) as Hid.
  { apply (pop_some_known id w (cb, rest)). rewrite Hw. apply pop_snoc. }
  rewrite Hw, pop_snoc.
  destruct (call code n cb [] _) as [[o w2]|] eqn:E; [|reflexivity].
  apply Hcb in E; [|simpl; rewrite length_insert; exact Hid].
  destruct E as [l E].
  rewrite deferred_log, deferred_set_eq in E by exact Hid.
  apply (IH _ _ (rest ++ l)). rewrite deferred_log, E, app_assoc. reflexivity.
Qed.

(** X9: the loop has no bound.  When the work function leaves on top of
    the array a callback that, whenever it completes, has registered
    itself again last, [withDefer] never settles, whatever the fuel. *)
Theorem self_registering_callback_never_settles n0 fn w o1 w1 rest cb :
  typeof fn = "function" ->
  let id := length (heap w) in
  (forall n w o w', id < length (heap w) ->
     call code n cb [] w = Some (o, w') ->
     exists l, deferred id w' = deferred id w ++ l ++ [cb]) ->
  call code n0 fn [VDeferFn id] (log (EvEnter id) (alloc w)) = Some (o1, w1) ->
  deferred id w1 = rest ++ [cb] ->
  forall n, withDefer code n fn w = None.
Proof.
  intros Hf id Hcb Hc Hw n.
  destruct (withDefer code n fn w) as [[o w']|] eqn:E; [|reflexivity].
  destruct (withDefer_inv _ _ _ _ _ _ Hf E)
    as (n' & o2 & w2 & errors & w3 & _ & Hc' & Hd & _).
  fold id in Hc', Hd.
  pose proof (call_mono _ _ (Nat.max n0 n') _ _ _ _ Hc (Nat.le_max_l _ _)) as H1.
  pose proof (call_mono _ _ (Nat.max n0 n') _ _ _ _ Hc' (Nat.le_max_r _ _)) as H2.
  rewrite H1 in H2. invert H2.
  rewrite (drain_self_registering id cb Hcb _ _ _ rest) in Hd; [discriminate|].
  rewrite deferred_log. exact Hw.
Qed.

End Further.

(** ** The further properties at the sample programs *)


(** At function 30, whose callback pushes during teardown. *)
Lemma withDefer_pops_in_stack_order_witness :
  exists o w',
    withDefer sample 10 (VFun FunctionProto 30) empty_world = Some (o, w') /\
    exists t,
      trace w' = trace empty_world ++ t /\
      stack_run (length (heap empty_world)) t [] [].
Proof.
  eexists _, _. split; [reflexivity|].
  eapply (withDefer_pops_in_stack_order sample 10 (VFun FunctionProto 30)
            empty_world); reflexivity.
Defined.

(** At function 200: it returns a value, its first callback throws. *)
Lemma cleanup_failure_discards_result_witness :
  exists o1 w1 os,
    call more_samples 10 (VFun FunctionProto 200) [VDeferFn 0]
      (log (EvEnter 0) (alloc empty_world)) = Some (o1, w1) /\
    await_ o1 = Normal (VStr "kept?") /\
    Forall2 (action_settles more_samples 0) (deferred 0 w1) os /\
    failures os = [VStr "e1"] /\
    exists N w',
      forall m, N <= m ->
        withDefer more_samples m (VFun FunctionProto 200) empty_world =
          Some (Thrown (VAggregateError (failures (rev os)) aggregate_msg), w').
Proof.
  assert (Forall2 (action_settles more_samples 0)
            [VFun FunctionProto 11; VFun FunctionProto 1]
            [Thrown (VStr "e1"); Normal VUndefined]) as HF.
  { repeat constructor.
    - eapply thrower_settles. intros. reflexivity.
    - eapply emitter_settles. intros. reflexivity. }
  eexists _, _, _. split; [reflexivity|]. split; [reflexivity|].
  split; [exact HF|]. split; [reflexivity|].
  apply (cleanup_failure_discards_result more_samples 10
           (VFun FunctionProto 200) empty_world _ _ (VStr "kept?") _
           eq_refl eq_refl eq_refl HF).
  simpl. discriminate.
Defined.

(** At function 210, which awaits [withDefer] on the failing function
    10. *)
Lemma inner_failure_is_one_entry_witness :
  exists x w1 a w2 os,
    exec more_samples 10
      (Call (VDeferFn 0) [VFun FunctionProto 41] (fun _ => Return VUndefined))
      (log (EvEnter 0) (alloc empty_world)) = Some (Normal x, w1) /\
    withDefer more_samples 10 (VFun FunctionProto 10) w1 = Some (Thrown a, w2) /\
    a = VAggregateError [VStr "main"; VStr "e2"; VStr "e1"] aggregate_msg /\
    Forall2 (action_settles more_samples 0) (deferred 0 w2) os /\
    (typeof (VFun FunctionProto 10) = "function" ->
       exists errors, a = VAggregateError errors aggregate_msg) /\
    exists N w',
      forall m, N <= m ->
        withDefer more_samples m (VFun FunctionProto 210) empty_world =
          Some (Thrown (VAggregateError (a :: failures (rev os)) aggregate_msg),
                w').
Proof.
  assert (Forall2 (action_settles more_samples 0)
            [VFun FunctionProto 41] [Normal VUndefined]) as HF
    by (repeat constructor; eapply emitter_settles; intros; reflexivity).
  eexists _, _, _, _, _. split; [reflexivity|]. split; [reflexivity|].
  split; [reflexivity|]. split; [exact HF|].
  exact (inner_failure_is_one_entry more_samples 10 10 FunctionProto 210
           (fun args => Call (arg0 args) [VFun FunctionProto 41]
                          (fun _ => Return VUndefined))
           (VFun FunctionProto 10) (fun _ => Return VUndefined)
           empty_world _ _ _ _ _ (fun args => eq_refl) eq_refl eq_refl HF).
Defined.

(** At a first registration on a fresh invocation. *)
Lemma defer_appends_at_end_witness :
  (defer 0 (VFun FunctionProto 1) (alloc empty_world)).1 = Normal VUndefined /\
  deferred 0 (defer 0 (VFun FunctionProto 1) (alloc empty_world)).2
    = deferred 0 (alloc empty_world) ++ [VFun FunctionProto 1] /\
  (forall id', id' <> 0 ->
     deferred id' (defer 0 (VFun FunctionProto 1) (alloc empty_world)).2
     = deferred id' (alloc empty_world)) /\
  length (heap (defer 0 (VFun FunctionProto 1) (alloc empty_world)).2)
    = length (heap (alloc empty_world)).
Proof.
  apply (defer_appends_at_end 0 (VFun FunctionProto 1) (alloc empty_world));
    [reflexivity | reflexivity | simpl; lia].
Defined.

(** At function 50, on whose handle function 1 is registered once it has
    settled. *)
Lemma registration_after_settling_never_runs_witness :
  exists o w',
    withDefer sample 10 (VFun FunctionProto 50) empty_world = Some (o, w') /\
    (defer 0 (VFun FunctionProto 1) w').1 = Normal VUndefined /\
    deferred 0 (defer 0 (VFun FunctionProto 1) w').2 = [VFun FunctionProto 1] /\
    forall m p o3 w3,
      exec sample m p (defer 0 (VFun FunctionProto 1) w').2 = Some (o3, w3) ->
      exists t,
        trace w3 = trace (defer 0 (VFun FunctionProto 1) w').2 ++ t /\
        pops 0 t = [] /\
        deferred 0 w3 = VFun FunctionProto 1 :: pushes 0 t.
Proof.
  eexists _, _. split; [reflexivity|].
  eapply (registration_after_settling_never_runs sample 10
            (VFun FunctionProto 50) empty_world); reflexivity.
Defined.

(** At function 70, which registers the self-registering function 71. *)
Lemma self_registering_callback_never_settles_witness :
  exists o1 w1,
    call sample 10 (VFun FunctionProto 70) [VDeferFn 0]
      (log (EvEnter 0) (alloc empty_world)) = Some (o1, w1) /\
    deferred 0 w1 = [] ++ [VFun FunctionProto 71] /\
    forall n, withDefer sample n (VFun FunctionProto 70) empty_world = None.
Proof.
  assert (forall n w o w', 0 < length (heap w) ->
            call sample n (VFun FunctionProto 71) [] w = Some (o, w') ->
            exists l, deferred 0 w' = deferred 0 w ++ l ++ [VFun FunctionProto 71])
    as Hcb.
  { intros n w o w' Hl H. exists [].
    destruct n as [|[|[|n]]]; try discriminate H.
    simpl in H. injection H as _ <-.
    unfold push. rewrite deferred_log. apply deferred_set_eq. exact Hl. }
  eexists _, _. split; [reflexivity|]. split; [reflexivity|].
  exact (self_registering_callback_never_settles sample 10
           (VFun FunctionProto 70) empty_world _ _ []
           (VFun FunctionProto 71) eq_refl Hcb eq_refl eq_refl).
Defined.

(** ** The claims on calls, at the sample programs *)

(** A callback that only returns a value returns it wherever it is
    called. *)
Lemma returner_returns code id proto fid v :
  (forall args, code fid args = Return v) ->
  action_returns code id (VFun proto fid) (Normal v).
Proof. intros Hc w. exists 2, w. simpl. rewrite Hc. auto. Qed.

Lemma emitter_returns code id proto fid v :
  (forall args, code fid args = Emit v (Return VUndefined)) ->
  action_returns code id (VFun proto fid) (Normal VUndefined).
Proof.
  intros Hc w. exists 3, (log (EvEmit v) w). simpl. rewrite Hc. auto.
Qed.

Lemma thrower_returns code id proto fid e :
  (forall args, code fid args = Throw e) ->
  action_returns code id (VFun proto fid) (Thrown e).
Proof. intros Hc w. exists 2, w. simpl. rewrite Hc. auto. Qed.


(** C2 as stated fails: function 310 registers 311 and throws ["main"];
    311, when teardown calls it, registers 312 and throws ["eB"]; 312
    throws ["eC"].  311 was registered before 312, and the failures
    follow as ["main"; "eB"; "eC"]: the order of the calls, not the
    reverse of the order of registration. *)
Lemma cleanup_failures_follow_execution_order :
  ~ (forall n o w' registered raws,
       withDefer further_samples n (VFun FunctionProto 310) empty_world
         = Some (o, w') ->
       accepted 0 (trace w') = registered ->
       Forall2 (fun cb raw => forall w, exists m w2,
                  call further_samples m cb [] w = Some (raw, w2))
         registered raws ->
       exists e,
         o = Thrown (VAggregateError (e :: omap failure_of (rev raws))
                       aggregate_msg)).
Proof.
  intros H.
  destruct (H 10 _ _ [VFun FunctionProto 311; VFun FunctionProto 312]
              [Thrown (VStr "eB"); Thrown (VStr "eC")] eq_refl eq_refl)
    as [e He].
  - repeat constructor.
    + intros w. destruct (defer 0 (VFun FunctionProto 312) w) as [o1 w1] eqn:E.
      exists 4. unfold defer in E. simpl in E. invert E.
      eexists. reflexivity.
    + intros w. exists 2, w. reflexivity.
  - discriminate He.
Qed.

(** (1) at function 300, which throws ["main"] and whose callbacks return
    a promise rejected with 7, succeed, and throw an [Error]; (2) at
    function 310, whose callback registers another one and fails. *)
Lemma withDefer_failed_work_runs_all_actions_witness :
  (exists w0,
     withDefer further_samples 10 (VFun FunctionProto 300) empty_world
       = Some (Thrown (VAggregateError [VStr "main"; VError "boom"; VNum 7]
                         aggregate_msg), w0) /\
     emitted (trace w0) = [VStr "302"]) /\
  (exists raw w1 t_work raws,
     call further_samples 10 (VFun FunctionProto 300) [VDeferFn 0]
       (log (EvEnter 0) (alloc empty_world)) = Some (raw, w1) /\
     trace w1 = trace empty_world ++ [EvEnter 0] ++ t_work /\
     failure_of raw = Some (VStr "main") /\
     accepted 0 t_work
       = [VFun FunctionProto 301; VFun FunctionProto 302;
          VFun FunctionProto 303] /\
     raws = [Normal (VPromise Rejected (VNum 7)); Normal VUndefined;
             Thrown (VError "boom")] /\
     Forall2 (action_returns further_samples 0) (accepted 0 t_work) raws /\
     exists N w' calls t_down errors,
       (forall m, N <= m ->
          withDefer further_samples m (VFun FunctionProto 300) empty_world =
            Some (Thrown (VAggregateError errors aggregate_msg), w')) /\
       errors = VStr "main" :: omap failure_of (rev raws) /\
       length errors = 1 + length (omap failure_of raws) /\
       invocation further_samples (VFun FunctionProto 300) empty_world raw
         t_work calls t_down
         (Thrown (VAggregateError errors aggregate_msg)) w' /\
       map fst calls = rev (accepted 0 t_work) /\
       map snd calls = rev raws) /\
  (exists o w',
     withDefer further_samples 10 (VFun FunctionProto 310) empty_world
       = Some (o, w') /\
     o = Thrown (VAggregateError [VStr "main"; VStr "eB"; VStr "eC"]
                   aggregate_msg) /\
     exists raw t_work calls t_down,
       invocation further_samples (VFun FunctionProto 310) empty_world raw
         t_work calls t_down o w' /\
       layered (accepted 0 t_work) (map fst calls) /\
       map fst calls ≡ₚ accepted 0 t_work ++ accepted 0 t_down /\
       forall e, failure_of raw = Some e ->
         o = Thrown (VAggregateError
                       (e :: omap failure_of (map snd calls)) aggregate_msg)).
Proof.
  split; [eexists; split; reflexivity|]. split.
  - assert (Forall2 (action_returns further_samples 0)
              [VFun FunctionProto 301; VFun FunctionProto 302;
               VFun FunctionProto 303]
              [Normal (VPromise Rejected (VNum 7)); Normal VUndefined;
               Thrown (VError "boom")]) as HF.
    { repeat constructor.
      - eapply returner_returns. intros. reflexivity.
      - eapply emitter_returns. intros. reflexivity.
      - eapply thrower_returns. intros. reflexivity. }
    eexists _, _, _, _. split; [reflexivity|]. split; [reflexivity|].
    split; [reflexivity|]. split; [reflexivity|]. split; [reflexivity|].
    split; [exact HF|].
    eapply (proj1 (withDefer_failed_work_runs_all_actions further_samples) 10
              (VFun FunctionProto 300) empty_world);
      [reflexivity | reflexivity | reflexivity | reflexivity | exact HF].
  - eexists _, _. split; [reflexivity|]. split; [reflexivity|].
    eapply (proj2 (withDefer_failed_work_runs_all_actions further_samples) 10
              (VFun FunctionProto 310) empty_world); reflexivity.
Defined.

(** At function 300: a thrown string, a thrown [Error] and the reason, a
    number, of a returned promise. *)
Lemma aggregate_holds_thrown_values_witness :
  exists o w',
    withDefer further_samples 10 (VFun FunctionProto 300) empty_world
      = Some (o, w') /\
    o = Thrown (VAggregateError [VStr "main"; VError "boom"; VNum 7]
                  aggregate_msg) /\
    exists raw t_work calls t_down,
      invocation further_samples (VFun FunctionProto 300) empty_world raw
        t_work calls t_down o w' /\
      match omap failure_of (raw :: map snd calls) with
      | [] => exists v, fulfils raw v /\ o = Normal v
      | e :: es => o = Thrown (VAggregateError (e :: es) aggregate_msg)
      end.
Proof.
  eexists _, _. split; [reflexivity|]. split; [reflexivity|].
  eapply (aggregate_holds_thrown_values further_samples 10
            (VFun FunctionProto 300) empty_world); reflexivity.
Defined.

(** At function 220, which registers its own handle and [withDefer]. *)
Lemma callbacks_are_called_without_argument_witness :
  (exists w0,
     withDefer more_samples 10 (VFun FunctionProto 220) empty_world
       = Some (Thrown (VAggregateError
                         [VTypeError "withDefer() expects a function";
                          VTypeError "defer() expects a function"]
                         aggregate_msg), w0)) /\
  exists raw w1 t_work es,
    call more_samples 10 (VFun FunctionProto 220) [VDeferFn 0]
      (log (EvEnter 0) (alloc empty_world)) = Some (raw, w1) /\
    trace w1 = trace empty_world ++ [EvEnter 0] ++ t_work /\
    accepted 0 t_work = [VDeferFn 0; VWithDefer] /\
    Forall2 (fun cb e => called_without_argument cb = Some e)
      (accepted 0 t_work) es /\
    es <> [] /\
    exists N w',
      forall m, N <= m ->
        withDefer more_samples m (VFun FunctionProto 220) empty_world =
          Some (Thrown (VAggregateError (omap failure_of [raw] ++ rev es)
                          aggregate_msg), w').
Proof.
  split; [eexists; reflexivity|].
  assert (Forall2 (fun cb e => called_without_argument cb = Some e)
            [VDeferFn 0; VWithDefer]
            [VTypeError defer_msg; VTypeError withDefer_msg]) as HF
    by (repeat constructor).
  eexists _, _, _, _. split; [reflexivity|]. split; [reflexivity|].
  split; [reflexivity|]. split; [exact HF|]. split; [discriminate|].
  eapply (callbacks_are_called_without_argument more_samples 10
            (VFun FunctionProto 220) empty_world);
    [reflexivity | reflexivity | reflexivity | exact HF | discriminate].
Defined.
